(** * AFFiNE cloud sync storage (workspace-impl/src/cloud/sync.ts)

    A shallow embedding of [AffineSyncStorage] and [AffineStaticSyncStorage].
    The two classes are written against collaborators that live outside the
    file: the socket.io channel, the base64 helpers, the cleanup service, the
    logger and [fetch].  Client code is embedded as programs of a small free
    monad whose operations are the calls made on those collaborators; the
    collaborators themselves are interpreted by a model of the socket's
    listener registry. *)

From Stdlib Require Import ZArith NArith Ascii String Strings.Byte.
From stdpp Require Import base option list strings gmap fin_maps.

#[local] Set Warnings "-register-all,-clear-no-such-hyp".

(** ** JavaScript values carried by fields typed [any] *)

Inductive jsval : Type :=
| JUndefined
| JNull
| JBool (b : bool)
| JNum (z : Z)
| JStr (s : string)
| JObj (fields : list (string * jsval)).

(** Truthiness, as tested by [if (v)] and [v ? a : b].  Numbers are the
    integers only, so the one falsy number is zero. *)
Definition truthy (v : jsval) : bool :=
  match v with
  | JUndefined | JNull => false
  | JBool b => b
  | JNum z => negb (Z.eqb z 0)
  | JStr s => negb (String.eqb s "")
  | JObj _ => true
  end.

(** Own-property lookup in an object literal. *)
Fixpoint field (k : string) (fs : list (string * jsval)) : jsval :=
  match fs with
  | [] => JUndefined
  | (k', v) :: fs => if String.eqb k k' then v else field k fs
  end.

(** [v === 'literal'] for a string literal. *)
Definition strict_eq_str (v : jsval) (lit : string) : bool :=
  match v with
  | JStr s => String.eqb s lit
  | _ => false
  end.

(** ** Failures *)

(** [Error m] is [new Error(m)]: it records the constructor's argument; the
    message the error object keeps is only the string conversion of it,
    which [error_message] gives.  [TypeError] is what a property read on
    [undefined] or [null] throws, [TimeoutError] the rejection of a timed
    request that received no acknowledgement. *)
Inductive exn : Type :=
| Error (message : jsval)
| TypeError
| TimeoutError.

Inductive outcome (A : Type) : Type :=
| Resolved (a : A)
| Rejected (e : exn).
Arguments Resolved {A} a.
Arguments Rejected {A} e.

(** Whether an object literal has a property [k] of its own. *)
Definition has_own (k : string) (fs : list (string * jsval)) : bool :=
  existsb (λ kv : string * jsval, String.eqb k kv.1) fs.

(** The message an [Error] keeps of the argument it was made of: none for
    [undefined], the text itself for a text, and for an object the
    conversion [String(object)], which is ['[object Object]'] whatever the
    object holds (unless it has a [toString] of its own, which is no
    function in a reply and makes the conversion throw).  [None] where the
    conversion is not modelled (numbers, booleans, [null], such objects)
    and for the failures that have no argument. *)
Definition error_message (e : exn) : option string :=
  match e with
  | Error JUndefined => Some ""
  | Error (JStr s) => Some s
  | Error (JObj fs) => if has_own "toString" fs then None
                       else Some "[object Object]"
  | _ => None
  end.

(** The message of the failure of a call, when it failed with one. *)
Definition failure_message {A} (r : outcome A) : option string :=
  match r with
  | Rejected e => error_message e
  | Resolved _ => None
  end.

(** ** Wire data *)

Definition bytes := list byte.
Abbreviation fnref := nat (only parsing).
Abbreviation callback := nat (only parsing).

(** The broadcast carried by ['server-updates']. *)
Record message : Type := Message {
  m_workspaceId : string;
  m_guid : string;
  m_updates : list string;
}.

(** Request payloads of the two acknowledged events. *)
Inductive payload : Type :=
| DocLoad (workspaceId guid : string) (stateVector : option string)
| ClientUpdate (workspaceId guid : string) (updates : list string).

(** [{ error: any } | { data: { missing: string; state: string } }] *)
Inductive load_response : Type :=
| LoadError (error : jsval)
| LoadData (missing : string) (state : option string).

(** [{ error?: any; data: any }]; an absent [error] reads as [undefined]. *)
Record update_response : Type := UpdateResponse {
  u_error : jsval;
  u_data : jsval;
}.

Definition response_of (p : payload) : Type :=
  match p with
  | DocLoad _ _ _ => load_response
  | ClientUpdate _ _ _ => update_response
  end.

(** What the code reads of a [fetch] response.  [ok] is the Fetch
    standard's: the status is in the range 200 to 299. *)
Record http_response : Type := HttpResponse {
  status : Z;
  body : bytes;
}.

Definition ok (r : http_response) : bool :=
  (200 <=? status r)%Z && (status r <=? 299)%Z.

(** The value [pull] resolves to when the document exists. *)
Record pull_result : Type := PullResult {
  data : bytes;
  state : option bytes;
}.

(** ** Function objects

    Every arrow function of the source is a closure with its own identity;
    the socket compares listeners by reference.  A closure records what it
    captures. *)
Inductive closure : Type :=
| HandleConnect
| CleanupHook (handleConnect : fnref)
| HandleUpdate (cb : callback)
| HandleDisconnect (handleUpdate : fnref) (disconnect : callback)
| Unsubscribe (handleUpdate handleDisconnect : fnref).

(** The argument an event hands to its listeners. *)
Inductive args : Type :=
| NoArgs
| Reason (reason : string)
| Broadcast (m : message).

(** ** Operations on the collaborators

    The calls the clients make: the creation of a function object, the
    socket's [on], [off], [emit], [connected], [connect] and
    [timeout(ms).emitWithAck], the cleanup service's [add], the consumer's
    two callbacks, the logger, and [fetch(url, { priority })], a GET. *)

Inductive op : Type :=
| NewClosure (c : closure)
| SocketOn (ev : string) (f : fnref)
| SocketOff (ev : string) (f : fnref)
| SocketEmit (ev : string) (arg : string)
| SocketConnected
| SocketConnect
| SocketEmitWithAck (timeout : Z) (ev : string) (p : payload)
| CleanupAdd (f : fnref)
| CallUpdate (cb : callback) (docId : string) (update : bytes)
| CallDisconnect (cb : callback) (reason : string)
| LoggerDebug (tag : string)
| LoggerError (tag : string)
| Fetch (url : string) (priority : string).

Definition op_res (o : op) : Type :=
  match o with
  | NewClosure _ => fnref
  | SocketConnected => bool
  | SocketEmitWithAck _ _ p => outcome (response_of p)
  | Fetch _ _ => outcome http_response
  | _ => unit
  end.

(** ** Programs *)

Inductive prog (A : Type) : Type :=
| Ret (a : A)
| Throw (e : exn)
| Do (o : op) (k : op_res o → prog A).
Arguments Ret {A} a.
Arguments Throw {A} e.
Arguments Do {A} o k.

Fixpoint bind {A B} (p : prog A) (f : A → prog B) : prog B :=
  match p with
  | Ret a => f a
  | Throw e => Throw e
  | Do o k => Do o (λ r, bind (k r) f)
  end.

#[export] Instance prog_ret : MRet prog := @Ret.
#[export] Instance prog_bind : MBind prog := λ A B f p, bind p f.

Definition perform (o : op) : prog (op_res o) := Do o Ret.

(** [await] of a promise: a rejection is thrown at the [await]. *)
Definition await {A} (p : prog (outcome A)) : prog A :=
  r ← p; match r with Resolved a => Ret a | Rejected e => Throw e end.

Fixpoint forEach {A} (l : list A) (f : A → prog unit) : prog unit :=
  match l with
  | [] => Ret tt
  | x :: l => f x;; forEach l f
  end.

(** [v.k] for [k] one of [code], [message]: a read on [undefined] or [null]
    throws, a primitive has no such property. *)
Definition get (v : jsval) (k : string) : prog jsval :=
  match v with
  | JUndefined | JNull => Throw TypeError
  | JObj fs => Ret (field k fs)
  | _ => Ret JUndefined
  end.

(** ** The collaborators *)

(** Modelled from the spec: the Channel Handle (the socket.io socket) and
    the lifecycle registry (the cleanup service), which are not part of the
    file.  The socket is a listener registry keyed by event name: [on]
    appends a listener, [off] removes a listener by reference and is a no-op
    when it is not registered, and an event calls the listeners registered
    when it fires, in registration order, each once.  [emit] sends to the
    remote peer and runs no local listener; [connect] only asks for a
    connection, which a later connect event reports.  The cleanup service
    keeps the callbacks it is given and calls them at teardown.  [heap]
    holds the function objects created so far; a reference is an index
    into it. *)
Record world : Type := World {
  connected : bool;
  callbacks : gmap string (list fnref);
  heap : list closure;
  hooks : list fnref;
}.

Definition listeners (w : world) (ev : string) : list fnref :=
  default [] (callbacks w !! ev).

Fixpoint remove_first (f : fnref) (l : list fnref) : list fnref :=
  match l with
  | [] => []
  | g :: l => if Nat.eqb g f then l else g :: remove_first f l
  end.

(** Modelled from the spec: [socket.on(ev, f)]. *)
Definition socket_on (ev : string) (f : fnref) (w : world) : world :=
  World (connected w) (<[ev := listeners w ev ++ [f]]> (callbacks w))
        (heap w) (hooks w).

(** Modelled from the spec: [socket.off(ev, f)]. *)
Definition socket_off (ev : string) (f : fnref) (w : world) : world :=
  match callbacks w !! ev with
  | Some l => World (connected w) (<[ev := remove_first f l]> (callbacks w))
                    (heap w) (hooks w)
  | None => w
  end.

Definition set_connected (b : bool) (w : world) : world :=
  World b (callbacks w) (heap w) (hooks w).

(** What the remote side answers: to an acknowledged request within its
    time bound (a rejection when the bound elapses), and to a [fetch]. *)
Record remote : Type := Remote {
  acknowledge : string → ∀ p : payload, outcome (response_of p);
  respond : string → outcome http_response;
}.

Definition silent : remote :=
  Remote (λ _ _, Rejected TimeoutError) (λ _, Rejected TimeoutError).

(** What an operation returns and the world it leaves. *)
Definition answer (R : remote) (o : op) (w : world) : op_res o * world :=
  match o return op_res o * world with
  | NewClosure c => (length (heap w),
                     World (connected w) (callbacks w) (heap w ++ [c]) (hooks w))
  | SocketOn ev f => (tt, socket_on ev f w)
  | SocketOff ev f => (tt, socket_off ev f w)
  | SocketEmit _ _ => (tt, w)
  | SocketConnected => (connected w, w)
  | SocketConnect => (tt, w)
  | SocketEmitWithAck _ ev p => (acknowledge R ev p, w)
  | CleanupAdd f => (tt, World (connected w) (callbacks w) (heap w) (hooks w ++ [f]))
  | CallUpdate _ _ _ => (tt, w)
  | CallDisconnect _ _ => (tt, w)
  | LoggerDebug _ => (tt, w)
  | LoggerError _ => (tt, w)
  | Fetch url _ => (respond R url, w)
  end.

(** Running a program: its result, the world it leaves and the operations
    it performed, in order. *)
Fixpoint exec {A} (R : remote) (p : prog A) (w : world)
  : outcome A * world * list op :=
  match p with
  | Ret a => (Resolved a, w, [])
  | Throw e => (Rejected e, w, [])
  | Do o k =>
      let '(r, w1) := answer R o w in
      let '(res, w2, t) := exec R (k r) w1 in
      (res, w2, o :: t)
  end.

(** A trace entry: an operation, and the function object that performed it
    ([None] for a method the consumer called). *)
Definition entry : Type := option fnref * op.
Definition trace : Type := list entry.

Definition by_ (who : option fnref) (t : list op) : trace := (who,.) <$> t.

(** ** The client over time

    What happens to a constructed client: the channel connects, disconnects
    with a reason or delivers a ['server-updates'] broadcast; the consumer
    calls [subscribe], a function [subscribe] returned, [pull] or [push]
    (with the reply the remote gives); the cleanup service tears down. *)

Inductive input : Type :=
| SocketConnects
| SocketDisconnects (reason : string)
| ServerUpdates (m : message)
| CallSubscribe (cb disconnect : callback)
| CallHandle (f : fnref)
| Teardown
| CallPull (docId : string) (state : option bytes) (reply : outcome load_response)
| CallPush (docId : string) (update : bytes) (reply : outcome update_response).

Definition replying_load (r : outcome load_response) : remote :=
  Remote (λ _ p, match p return outcome (response_of p) with
                 | DocLoad _ _ _ => r
                 | ClientUpdate _ _ _ => Rejected TimeoutError
                 end)
         (λ _, Rejected TimeoutError).

Definition replying_update (r : outcome update_response) : remote :=
  Remote (λ _ p, match p return outcome (response_of p) with
                 | DocLoad _ _ _ => Rejected TimeoutError
                 | ClientUpdate _ _ _ => r
                 end)
         (λ _, Rejected TimeoutError).

Definition replying_fetch (r : outcome http_response) : remote :=
  Remote (λ _ _, Rejected TimeoutError) (λ _, r).

(** ** Reading a trace *)

(** The operations a given function object performed. *)
Definition ops_by (f : fnref) (t : trace) : list op :=
  omap (λ e : entry, if decide (e.1 = Some f) then Some e.2 else None) t.

(** The arguments of the fire-and-forget emissions of event [ev]. *)
Definition emitted (ev : string) (t : trace) : list string :=
  omap (λ e : entry, match e.2 with
                     | SocketEmit ev' arg => if String.eqb ev' ev then Some arg else None
                     | _ => None
                     end) t.

(** The calls of [socket.connect()]. *)
Definition connect_requests (t : trace) : nat :=
  length (omap (λ e : entry, match e.2 with
                             | SocketConnect => Some tt
                             | _ => None
                             end) t).

(** The acknowledged requests: time bound, event and payload. *)
Definition requests (t : list op) : list (Z * string * payload) :=
  omap (λ o, match o with
             | SocketEmitWithAck timeout ev p => Some (timeout, ev, p)
             | _ => None
             end) t.

(** The [fetch] calls: URL and priority hint. *)
Definition fetches (t : list op) : list (string * string) :=
  omap (λ o, match o with
             | Fetch url priority => Some (url, priority)
             | _ => None
             end) t.

(** The invocations of the consumer's [onUpdate] callbacks. *)
Definition update_calls (t : trace) : list (callback * string * bytes) :=
  omap (λ e : entry, match e.2 with
                     | CallUpdate cb docId u => Some (cb, docId, u)
                     | _ => None
                     end) t.

(** The invocations of the consumer's [onDisconnect] callbacks. *)
Definition disconnect_calls (t : trace) : list (callback * string) :=
  omap (λ e : entry, match e.2 with
                     | CallDisconnect cb reason => Some (cb, reason)
                     | _ => None
                     end) t.

Definition result {A} (x : outcome A * world * list op) : outcome A := x.1.1.
Definition performed {A} (x : outcome A * world * list op) : list op := x.2.

Definition is_connect (i : input) : bool :=
  match i with SocketConnects => true | _ => false end.
Definition is_teardown (i : input) : bool :=
  match i with Teardown => true | _ => false end.
Definition is_subscribe (i : input) : bool :=
  match i with CallSubscribe _ _ => true | _ => false end.
Definition is_call_handle (i : input) : bool :=
  match i with CallHandle _ => true | _ => false end.
Definition is_request (i : input) : bool :=
  match i with CallPull _ _ _ | CallPush _ _ _ => true | _ => false end.

(** An operation that sends nothing to the remote side: no emission,
    acknowledged or not, no [connect], no [fetch]. *)
Definition local_op (o : op) : Prop :=
  match o with
  | SocketEmit _ _ | SocketEmitWithAck _ _ _ | SocketConnect | Fetch _ _ => False
  | _ => True
  end.

(** [n] disconnect/connect cycles of the channel. *)
Fixpoint cycles (reason : string) (n : nat) : list input :=
  match n with
  | O => []
  | S n => SocketDisconnects reason :: SocketConnects :: cycles reason n
  end.

(** ** A concrete codec *)

(** Modelled from the spec: the Codec ([uint8ArrayToBase64] and
    [base64ToUint8Array] of [../utils/base64], which is not part of the
    file), as standard base64 with padding.  Decoding is total: characters
    outside the alphabet, the padding among them, carry no bits. *)
Module Base64.

Definition alphabet : list ascii :=
  list_ascii_of_string
    "ABCDEFGHIJKLMNOPQRSTUVWXYZabcdefghijklmnopqrstuvwxyz0123456789+/".

Definition digit (n : N) : ascii :=
  nth (N.to_nat n) alphabet "="%char.

Fixpoint index_of (c : ascii) (l : list ascii) (i : N) : option N :=
  match l with
  | [] => None
  | d :: l => if Ascii.eqb c d then Some i else index_of c l (N.succ i)
  end.

Definition value (c : ascii) : option N := index_of c alphabet 0%N.

Definition byte_of (n : N) : byte :=
  default "000"%byte (Byte.of_N (n mod 256)).

(** Three bytes make four digits; one or two trailing bytes make two or
    three digits and padding. *)
Fixpoint pack (b : bytes) : list N :=
  match b with
  | [] => []
  | [x] =>
      let x := Byte.to_N x in
      [x / 4; (x mod 4) * 16]%N
  | [x; y] =>
      let x := Byte.to_N x in let y := Byte.to_N y in
      [x / 4; (x mod 4) * 16 + y / 16; (y mod 16) * 4]%N
  | x :: y :: z :: b =>
      let x := Byte.to_N x in let y := Byte.to_N y in let z := Byte.to_N z in
      [x / 4; (x mod 4) * 16 + y / 16; (y mod 16) * 4 + z / 64; z mod 64]%N
        ++ pack b
  end.

Definition padding (n : nat) : string :=
  match n mod 3 with
  | 1 => "=="
  | 2 => "="
  | _ => ""
  end.

(** Modelled from the spec: [uint8ArrayToBase64], the Codec's [encode]. *)
Definition encode (b : bytes) : string :=
  string_of_list_ascii (digit <$> pack b) +:+ padding (length b).

Fixpoint unpack (l : list N) : bytes :=
  match l with
  | a :: b :: c :: d :: l =>
      byte_of (a * 4 + b / 16) :: byte_of ((b mod 16) * 16 + c / 4)
        :: byte_of ((c mod 4) * 64 + d) :: unpack l
  | [a; b; c] =>
      [byte_of (a * 4 + b / 16); byte_of ((b mod 16) * 16 + c / 4)]
  | [a; b] => [byte_of (a * 4 + b / 16)]
  | _ => []
  end%N.

(** Modelled from the spec: [base64ToUint8Array], the Codec's [decode]. *)
Definition decode (s : string) : bytes :=
  unpack (omap value (list_ascii_of_string s)).

End Base64.


(** ** Worlds the client can be in *)

(** The event a function object may listen on: [handleConnect] on
    ['connect'], a [handleUpdate] on ['server-updates'], a [handleDisconnect]
    on ['disconnect'], where it was created right after the [handleUpdate]
    it detaches. *)
Definition listens_on (w : world) (ev : string) (f : fnref) : Prop :=
  match heap w !! f with
  | Some HandleConnect => ev = "connect"
  | Some (HandleUpdate _) => ev = "server-updates"
  | Some (HandleDisconnect u _) => ev = "disconnect" ∧ f = S u
  | _ => False
  end.

(** What holds of every world the client produces. *)
Record wf (w : world) : Prop := Wf {
  wf_events : ∀ ev f, f ∈ listeners w ev → listens_on w ev f;
  wf_nodup : ∀ ev, NoDup (listeners w ev);
  wf_paired : ∀ u, u ∈ listeners w "server-updates" →
                   S u ∈ listeners w "disconnect";
  wf_handle : ∀ f u d, heap w !! f = Some (Unsubscribe u d) →
                       d = S u ∧ ∃ cb, heap w !! u = Some (HandleUpdate cb);
  wf_hooks : ∀ f, f ∈ hooks w → ∃ h, heap w !! f = Some (CleanupHook h);
}.

(** The client has not been torn down: its [handleConnect], the first
    function object it created, is the listener of ['connect']. *)
Definition announcing (w : world) : Prop :=
  listeners w "connect" = [0] ∧ heap w !! 0 = Some HandleConnect.

(** ** The two clients, as written *)

Section Client.

(** The base64 helpers of [../utils/base64] are not part of the file; the
    clients are parametric in them. *)
Variable uint8ArrayToBase64 : bytes → string.
Variable base64ToUint8Array : string → bytes.

(** [this.workspaceId], bound at construction. *)
Variable workspaceId : string.

Definition SEND_TIMEOUT : Z := 30000.

(** *** AffineSyncStorage *)

Definition handleConnect_body : prog unit :=
  perform (SocketEmit "client-handshake-sync" workspaceId).

Definition cleanup (handleConnect : fnref) : prog unit :=
  perform (SocketEmit "client-leave-sync" workspaceId);;
  perform (SocketOff "connect" handleConnect).

Definition constructor : prog fnref :=
  handleConnect ← perform (NewClosure HandleConnect);
  perform (SocketOn "connect" handleConnect);;
  connected ← perform SocketConnected;
  (if connected : bool
   then perform (SocketEmit "client-handshake-sync" workspaceId)
   else perform SocketConnect);;
  hook ← perform (NewClosure (CleanupHook handleConnect));
  perform (CleanupAdd hook);;
  Ret handleConnect.

(** [state] is [None] for an argument that is [undefined]; every
    [Uint8Array], the empty one too, is an object and so truthy. *)
Definition pull (docId : string) (state : option bytes)
  : prog (option pull_result) :=
  let stateVector :=
    match state with
    | Some s => Some (uint8ArrayToBase64 s)
    | None => None
    end in
  perform (LoggerDebug "doc-load-v2");;
  response ← await (perform (SocketEmitWithAck SEND_TIMEOUT "doc-load-v2"
                               (DocLoad workspaceId docId stateVector)));
  perform (LoggerDebug "doc-load callback");;
  match response : load_response with
  | LoadError error =>
      code ← get error "code";
      if strict_eq_str code "DOC_NOT_FOUND"
      then Ret None
      else message ← get error "message"; Throw (Error message)
  | LoadData missing state =>
      Ret (Some {| data := base64ToUint8Array missing;
                   state := match state with
                            | Some s => if truthy (JStr s)
                                        then Some (base64ToUint8Array s)
                                        else None
                            | None => None
                            end |})
  end.

Definition push (docId : string) (update : bytes) : prog unit :=
  perform (LoggerDebug "client-update-v2");;
  let payload := uint8ArrayToBase64 update in
  response ← await (perform (SocketEmitWithAck SEND_TIMEOUT "client-update-v2"
                               (ClientUpdate workspaceId docId [payload])));
  if truthy (u_error response)
  then perform (LoggerError "client-update-v2 error");;
       Throw (Error (u_error response))
  else Ret tt.

Definition handleUpdate_body (cb : callback) (message : message) : prog unit :=
  if String.eqb (m_workspaceId message) workspaceId
  then forEach (m_updates message) (λ update,
         perform (CallUpdate cb (m_guid message) (base64ToUint8Array update)))
  else Ret tt.

Definition handleDisconnect_body (handleUpdate : fnref) (disconnect : callback)
    (reason : string) : prog unit :=
  perform (SocketOff "server-updates" handleUpdate);;
  perform (CallDisconnect disconnect reason).

Definition unsubscribe_body (handleUpdate handleDisconnect : fnref) : prog unit :=
  perform (SocketOff "server-updates" handleUpdate);;
  perform (SocketOff "disconnect" handleDisconnect).

Definition subscribe (cb disconnect : callback) : prog fnref :=
  handleUpdate ← perform (NewClosure (HandleUpdate cb));
  handleDisconnect ← perform (NewClosure (HandleDisconnect handleUpdate disconnect));
  perform (SocketOn "server-updates" handleUpdate);;
  perform (SocketOn "disconnect" handleDisconnect);;
  perform (NewClosure (Unsubscribe handleUpdate handleDisconnect)).

(** The code a function object runs when it is called with [a].  An event
    hands each of its listeners the argument of its own kind; the
    remaining combinations are never called. *)
Definition closure_body (c : closure) (a : args) : prog unit :=
  match c, a with
  | HandleConnect, _ => handleConnect_body
  | CleanupHook handleConnect, _ => cleanup handleConnect
  | HandleUpdate cb, Broadcast m => handleUpdate_body cb m
  | HandleDisconnect handleUpdate disconnect, Reason reason =>
      handleDisconnect_body handleUpdate disconnect reason
  | Unsubscribe handleUpdate handleDisconnect, _ =>
      unsubscribe_body handleUpdate handleDisconnect
  | _, _ => Ret tt
  end.

(** *** AffineStaticSyncStorage *)

Definition static_pull (docId : string) : prog (option pull_result) :=
  response ← await (perform (Fetch ("/api/workspaces/" +:+ workspaceId
                                     +:+ "/docs/" +:+ docId) "high"));
  if ok response
  then Ret (Some {| data := body response; state := None |})
  else Ret None.

Definition static_push : prog unit :=
  Throw (Error (JStr "Method not implemented.")).

Definition static_subscribe : prog fnref :=
  Throw (Error (JStr "Method not implemented.")).

(** ** The client over time, continued *)

(** Calling the function object [f] with [a]. *)
Definition call (f : fnref) (a : args) (w : world) : world * trace :=
  match heap w !! f with
  | Some c =>
      let '(_, w', t) :=
        exec silent (closure_body c a) w in
      (w', by_ (Some f) t)
  | None => (w, [])
  end.

Fixpoint call_all (fs : list fnref) (a : args) (w : world) : world * trace :=
  match fs with
  | [] => (w, [])
  | f :: fs =>
      let '(w1, t1) := call f a w in
      let '(w2, t2) := call_all fs a w1 in
      (w2, t1 ++ t2)
  end.

(** Modelled from the spec: an event calls the listeners registered at the
    time it fires, in order. *)
Definition fire (ev : string) (a : args) (w : world) : world * trace :=
  call_all (listeners w ev) a w.

Definition method {A} (R : remote) (p : prog A) (w : world) : world * trace :=
  let '(_, w', t) := exec R p w in (w', by_ None t).

(** A consumer can only call a function that [subscribe] returned. *)
Definition step (i : input) (w : world) : world * trace :=
  match i with
  | SocketConnects => fire "connect" NoArgs (set_connected true w)
  | SocketDisconnects reason =>
      fire "disconnect" (Reason reason) (set_connected false w)
  | ServerUpdates m => fire "server-updates" (Broadcast m) w
  | CallSubscribe cb disconnect =>
      method silent (subscribe cb disconnect) w
  | CallHandle f =>
      match heap w !! f with
      | Some (Unsubscribe _ _) => call f NoArgs w
      | _ => (w, [])
      end
  | Teardown => call_all (hooks w) NoArgs w
  | CallPull docId state reply =>
      method (replying_load reply) (pull docId state) w
  | CallPush docId update reply =>
      method (replying_update reply) (push docId update) w
  end.

Fixpoint run (ins : list input) (w : world) : world * trace :=
  match ins with
  | [] => (w, [])
  | i :: ins =>
      let '(w1, t1) := step i w in
      let '(w2, t2) := run ins w1 in
      (w2, t1 ++ t2)
  end.

(** A socket nobody has listened on yet, connected or not.  The
    development follows one client from such a socket; what it states of
    listeners it states of the function objects of that client. *)
Definition fresh_socket (c : bool) : world := World c ∅ [] [].

(** [new AffineSyncStorage(workspaceId, cleanupService)] *)
Definition construct (c : bool) : world * trace :=
  method silent constructor (fresh_socket c).

(** The world after the constructor ran on a socket whose [connected] is
    [c] and the inputs [ins] followed. *)
Definition after (c : bool) (ins : list input) : world :=
  (run ins (construct c).1).1.

(** Two worlds used as examples: a client constructed on a connected
    channel and subscribed once, and one subscribed twice. *)
Definition subscribed_once : world := after true [CallSubscribe 7 8].
Definition subscribed_twice : world :=
  after true [CallSubscribe 7 8; CallSubscribe 9 10].

(** The operations a function object performs when called; they do not
    depend on the world. *)
Definition closure_ops (c : closure) (a : args) : list op :=
  performed (exec silent (closure_body c a) (fresh_socket false)).

(** The world a function object leaves when called. *)
Definition closure_effect (c : closure) (a : args) (w : world) : world :=
  match c, a with
  | CleanupHook h, _ => socket_off "connect" h w
  | HandleDisconnect u _, Reason _ => socket_off "server-updates" u w
  | Unsubscribe u d, _ => socket_off "disconnect" d (socket_off "server-updates" u w)
  | _, _ => w
  end.

(** The world [subscribe] leaves: three new function objects, the first
    two attached to their events. *)
Definition subscribed (cb disconnect : callback) (w : world) : world :=
  let n := length (heap w) in
  World (connected w)
        (<["disconnect" := listeners w "disconnect" ++ [S n]]>
           (<["server-updates" := listeners w "server-updates" ++ [n]]>
              (callbacks w)))
        (heap w ++ [HandleUpdate cb; HandleDisconnect n disconnect;
                    Unsubscribe n (S n)])
        (hooks w).

(** The trace of calling [f] with [a] in a world with the heap of [w]. *)
Definition call_trace (w : world) (a : args) (f : fnref) : trace :=
  match heap w !! f with
  | Some c => by_ (Some f) (closure_ops c a)
  | None => []
  end.

(** The [onUpdate] calls a listener of ['server-updates'] makes for a
    broadcast meant for the bound collection. *)
Definition deliveries (w : world) (m : message) (h : fnref)
  : list (callback * string * bytes) :=
  match heap w !! h with
  | Some (HandleUpdate cb) =>
      (λ u, (cb, m_guid m, base64ToUint8Array u)) <$> m_updates m
  | _ => []
  end.

(** The number of connect events among inputs. *)
Definition connects (ins : list input) : nat :=
  length (List.filter is_connect ins).

(** The operations of a request: logging and the acknowledged emission. *)
Definition quiet (o : op) : Prop :=
  match o with
  | LoggerDebug _ | LoggerError _ | SocketEmitWithAck _ _ _ => True
  | _ => False
  end.

(** * Requests and replies *)

Lemma exec_bind {A B} (R : remote) (p : prog A) (f : A → prog B) (w : world) :
  exec R (bind p f) w =
  match exec R p w with
  | (Resolved a, w1, t1) =>
      let '(r, w2, t2) := exec R (f a) w1 in (r, w2, t1 ++ t2)
  | (Rejected e, w1, t1) => (Rejected e, w1, t1)
  end.
Proof.
  revert w. induction p as [a|e|o k IH]; intros w; simpl.
  - by destruct (exec R (f a) w) as [[??]?].
  - done.
  - destruct (answer R o w) as [r w1]. rewrite IH.
    destruct (exec R (k r) w1) as [[[a|e] w2] t]; [|done].
    by destruct (exec R (f a) w2) as [[??]?].
Qed.

Ltac run_request R :=
  unfold result, performed; simpl;
  repeat match goal with
  | |- context [acknowledge R ?ev ?p] => destruct (acknowledge R ev p); simpl
  | |- context [respond R ?u] => destruct (respond R u); simpl
  end.

Lemma pull_performed (docId : string) (st : option bytes) (R : remote)
    (w : world) :
  requests (performed (exec R (pull docId st) w))
  = [(30000%Z, "doc-load-v2",
      DocLoad workspaceId docId (uint8ArrayToBase64 <$> st))].
Proof.
  unfold pull, result, performed. simpl.
  destruct (acknowledge R _ _) as [r|e]; simpl; [|by destruct st].
  simpl in r. destruct r as [error|missing state]; simpl; [|by destruct st].
  destruct error as [| |b|z|s|fs]; simpl; try by destruct st.
  destruct (strict_eq_str _ _); simpl; by destruct st.
Qed.

(** C1, as the code has it: an absent local state leaves [stateVector] out
    of the request, and every local state that is present, the empty one
    included, is sent as its encoding. *)
Theorem pull_sends_state_vector (docId : string) (R : remote) (w : world) :
  requests (performed (exec R (pull docId None) w))
  = [(30000%Z, "doc-load-v2", DocLoad workspaceId docId None)]
  ∧ ∀ localState : bytes,
      requests (performed (exec R (pull docId (Some localState)) w))
      = [(30000%Z, "doc-load-v2",
          DocLoad workspaceId docId (Some (uint8ArrayToBase64 localState)))].
Proof.
  split.
  - apply (pull_performed docId None).
  - intros localState. apply (pull_performed docId (Some localState)).
Qed.

(** C2, as the code has it: a reply that is an error object with code
    ['DOC_NOT_FOUND'] makes [pull] resolve to [null]; any other error object
    makes it fail with the object's message; a reply with data makes it
    resolve to the decoded [missing], together with the decoded state when
    the reply has a state that is not the empty text and no state
    otherwise. *)
Theorem pull_reply (docId : string) (st : option bytes) (w : world)
    (reply : load_response) :
  let r := result (exec (replying_load (Resolved reply)) (pull docId st) w) in
  (∀ fs, reply = LoadError (JObj fs) →
         field "code" fs = JStr "DOC_NOT_FOUND" → r = Resolved None)
  ∧ (∀ fs, reply = LoadError (JObj fs) →
           field "code" fs ≠ JStr "DOC_NOT_FOUND" →
           r = Rejected (Error (field "message" fs)))
  ∧ (∀ missing state, reply = LoadData missing state →
       r = Resolved (Some {| data := base64ToUint8Array missing;
                             state := match state with
                                      | Some s => if decide (s = "") then None
                                                  else Some (base64ToUint8Array s)
                                      | None => None
                                      end |})).
Proof.
  intros r. subst r. unfold result, pull. simpl.
  split; [|split].
  - intros fs -> Hcode. simpl. by rewrite Hcode.
  - intros fs -> Hcode. simpl.
    destruct (strict_eq_str (field "code" fs) "DOC_NOT_FOUND") eqn:E; [|done].
    destruct (field "code" fs) as [| |b|z|s|fs']; try done.
    simpl in E. apply String.eqb_eq in E. by subst s.
  - intros missing state ->. simpl. repeat f_equal.
    destruct state as [s|]; [|done]. simpl.
    case_decide as Hs; [by subst s|].
    destruct (String.eqb s "") eqn:E; [|done].
    apply String.eqb_eq in E. done.
Qed.

(** C5, at the reply [{error: {code: 'INTERNAL', message: 'boom'}}]: [push]
    fails with [new Error(response.error)], an error made of the object
    itself, so that the message it keeps is ['[object Object]']: the same
    for every object marker, whose code and message are lost.  A marker
    that is a text is kept as the message, and [pull], given the same error
    object, makes its error of the object's [message] and keeps it. *)
Theorem push_object_marker_lost (docId : string) (st : option bytes)
    (update : bytes) (data : jsval) (w : world) :
  let push_with error :=
    result (exec (replying_update (Resolved (UpdateResponse error data)))
                 (push docId update) w) in
  let pull_with error :=
    result (exec (replying_load (Resolved (LoadError error))) (pull docId st) w) in
  let marker := JObj [("code", JStr "INTERNAL"); ("message", JStr "boom")] in
  let other := JObj [("code", JStr "NOT_IN_WORKSPACE");
                     ("message", JStr "denied")] in
  push_with marker = Rejected (Error marker)
  ∧ failure_message (push_with marker) = Some "[object Object]"
  ∧ failure_message (push_with other) = Some "[object Object]"
  ∧ (∀ fs, failure_message (push_with (JObj fs))
           = if has_own "toString" fs then None else Some "[object Object]")
  ∧ (∀ s, failure_message (push_with (JStr s))
          = if String.eqb s "" then None else Some s)
  ∧ failure_message (pull_with marker) = Some "boom".
Proof.
  intros push_with pull_with marker other.
  subst push_with pull_with marker other. unfold result, push, pull. simpl.
  split; [done|]. split; [done|]. split; [done|]. split; [done|].
  split; [|done]. intros s. by destruct (String.eqb s "").
Qed.

(** C6: [push] sends one request, on ['client-update-v2'], bounded by 30000
    ms, whose payload carries the bound collection id, the document id and
    an [updates] array holding exactly the encoding of [update], whatever
    [update] is, the empty payload included; the one request [pull] sends
    is bounded by 30000 ms as well. *)
Theorem push_request (docId : string) (update : bytes) (R : remote) (w : world) :
  requests (performed (exec R (push docId update) w))
  = [(30000%Z, "client-update-v2",
      ClientUpdate workspaceId docId [uint8ArrayToBase64 update])]
  ∧ requests (performed (exec R (push docId []) w))
    = [(30000%Z, "client-update-v2",
        ClientUpdate workspaceId docId [uint8ArrayToBase64 []])]
  ∧ ∀ docId' st, ∃ p,
      requests (performed (exec R (pull docId' st) w))
      = [(30000%Z, "doc-load-v2", p)].
Proof.
  assert (∀ u, requests (performed (exec R (push docId u) w))
               = [(30000%Z, "client-update-v2",
                   ClientUpdate workspaceId docId [uint8ArrayToBase64 u])]) as H.
  { intros u. unfold push. run_request R; [|done].
    by destruct (truthy _). }
  split; [apply H|split; [apply H|]].
  intros docId' st. eexists. apply pull_performed.
Qed.

(** C9: the static client's [pull] fetches the document's path under the
    bound collection with the high-priority hint; a response with a status
    from 200 to 299 makes it resolve to the whole body as data with no
    state, every other response, 404 like any other, to [null]; [push] and
    [subscribe] fail with the not-implemented error whatever the world. *)
Theorem static_client (docId : string) (R : remote) (w : world) :
  fetches (performed (exec R (static_pull docId) w))
  = [("/api/workspaces/" +:+ workspaceId +:+ "/docs/" +:+ docId, "high")]
  ∧ (∀ response,
       result (exec (replying_fetch (Resolved response)) (static_pull docId) w)
       = if decide (200 ≤ status response ≤ 299)%Z
         then Resolved (Some {| data := body response; state := None |})
         else Resolved None)
  ∧ (∀ b, result (exec (replying_fetch (Resolved (HttpResponse 404 b)))
                       (static_pull docId) w) = Resolved None
          ∧ result (exec (replying_fetch (Resolved (HttpResponse 500 b)))
                         (static_pull docId) w) = Resolved None)
  ∧ result (exec R static_push w)
    = Rejected (Error (JStr "Method not implemented."))
  ∧ result (exec R static_subscribe w)
    = Rejected (Error (JStr "Method not implemented.")).
Proof.
  repeat split.
  - unfold static_pull. run_request R; [|done]. by destruct (ok _).
  - intros response. unfold result, static_pull, ok. simpl.
    case_decide as Hs.
    + destruct Hs as [H1 H2].
      apply Z.leb_le in H1, H2. by rewrite H1, H2.
    + destruct (200 <=? status response)%Z eqn:H1;
        destruct (status response <=? 299)%Z eqn:H2; simpl; try done.
      apply Z.leb_le in H1, H2. by destruct Hs.
Qed.

(** * The listener registry *)

Lemma remove_first_subseteq (f x : fnref) (l : list fnref) :
  x ∈ remove_first f l → x ∈ l.
Proof.
  induction l as [|g l IH]; simpl; [done|].
  destruct (Nat.eqb g f); set_solver.
Qed.

Lemma remove_first_absent (f : fnref) (l : list fnref) :
  f ∉ l → remove_first f l = l.
Proof.
  induction l as [|g l IH]; simpl; [done|]. intros Hf.
  destruct (Nat.eqb_spec g f) as [->|Hne]; [set_solver|].
  f_equal. apply IH. set_solver.
Qed.

Lemma remove_first_elem (f x : fnref) (l : list fnref) :
  NoDup l → x ∈ remove_first f l ↔ x ∈ l ∧ x ≠ f.
Proof.
  induction 1 as [|g l Hg Hl IH]; simpl; [set_solver|].
  destruct (Nat.eqb_spec g f) as [->|Hne]; [set_solver|].
  rewrite !elem_of_cons, IH. naive_solver.
Qed.

Lemma remove_first_NoDup (f : fnref) (l : list fnref) :
  NoDup l → NoDup (remove_first f l).
Proof.
  induction 1 as [|g l Hg Hl IH]; simpl; [constructor|].
  destruct (Nat.eqb g f); [done|]. constructor; [|done].
  intros Hin. by apply remove_first_subseteq in Hin.
Qed.

Lemma listeners_socket_off (ev ev' : string) (f : fnref) (w : world) :
  listeners (socket_off ev f w) ev'
  = if decide (ev = ev') then remove_first f (listeners w ev) else listeners w ev'.
Proof.
  unfold socket_off, listeners.
  destruct (callbacks w !! ev) as [l|] eqn:E; simpl.
  - case_decide as H.
    + subst. by rewrite lookup_insert_eq.
    + by rewrite lookup_insert_ne.
  - case_decide as H; [by subst; rewrite E|done].
Qed.

Lemma heap_socket_off (ev : string) (f : fnref) (w : world) :
  heap (socket_off ev f w) = heap w.
Proof. unfold socket_off. by destruct (callbacks w !! ev). Qed.

Lemma hooks_socket_off (ev : string) (f : fnref) (w : world) :
  hooks (socket_off ev f w) = hooks w.
Proof. unfold socket_off. by destruct (callbacks w !! ev). Qed.

(** Detaching a listener that is not attached changes nothing. *)
Lemma socket_off_absent (ev : string) (f : fnref) (w : world) :
  f ∉ listeners w ev → socket_off ev f w = w.
Proof.
  unfold socket_off, listeners. destruct w as [c cbs h hk]. simpl.
  destruct (cbs !! ev) as [l|] eqn:E; simpl; [|done].
  intros Hf. rewrite remove_first_absent by done. by rewrite insert_id.
Qed.

(** * Calling function objects *)

Lemma exec_forEach_update (R : remote) (cb : callback) (guid : string)
    (us : list string) (w : world) :
  exec R (forEach us (λ u, perform (CallUpdate cb guid (base64ToUint8Array u)))) w
  = (Resolved tt, w, (λ u, CallUpdate cb guid (base64ToUint8Array u)) <$> us).
Proof.
  induction us as [|u us IH]; simpl; [done|].
  by rewrite IH.
Qed.

Lemma closure_ops_update (cb : callback) (m : message) :
  closure_ops (HandleUpdate cb) (Broadcast m)
  = if String.eqb (m_workspaceId m) workspaceId
    then (λ u, CallUpdate cb (m_guid m) (base64ToUint8Array u)) <$> m_updates m
    else [].
Proof.
  unfold closure_ops, performed. simpl. unfold handleUpdate_body.
  destruct (String.eqb _ _); [|done]. by rewrite exec_forEach_update.
Qed.

Lemma exec_closure_body (c : closure) (a : args) (w : world) :
  exec silent (closure_body c a) w
  = (Resolved tt, closure_effect c a w, closure_ops c a).
Proof.
  destruct c as [|h|cb|u dc|u d], a as [|r|m]; try reflexivity.
  rewrite closure_ops_update. simpl. unfold handleUpdate_body.
  destruct (String.eqb _ _); [|done]. by rewrite exec_forEach_update.
Qed.

Lemma call_eq (f : fnref) (a : args) (w : world) :
  call f a w = match heap w !! f with
               | Some c => (closure_effect c a w, by_ (Some f) (closure_ops c a))
               | None => (w, [])
               end.
Proof.
  unfold call. destruct (heap w !! f) as [c|]; [|done].
  by rewrite exec_closure_body.
Qed.

Lemma heap_closure_effect (c : closure) (a : args) (w : world) :
  heap (closure_effect c a w) = heap w.
Proof. destruct c, a; simpl; by rewrite ?heap_socket_off. Qed.

Lemma listeners_closure_effect (c : closure) (a : args) (w : world)
    (ev : string) (x : fnref) :
  x ∈ listeners (closure_effect c a w) ev → x ∈ listeners w ev.
Proof.
  destruct c, a; simpl; rewrite ?listeners_socket_off; intros H;
    repeat (case_decide; subst); try done;
    repeat match goal with
           | H : _ ∈ remove_first _ _ |- _ => apply remove_first_subseteq in H
           end; done.
Qed.

(** * Invariants of the client's worlds *)

Lemma listens_on_lt (w : world) (ev : string) (f : fnref) :
  listens_on w ev f → f < length (heap w).
Proof.
  unfold listens_on. destruct (heap w !! f) as [c|] eqn:E; [|done].
  intros _. by eapply lookup_lt_Some.
Qed.

Lemma wf_shrink (w w' : world) :
  wf w → heap w' = heap w → hooks w' = hooks w →
  (∀ ev x, x ∈ listeners w' ev → x ∈ listeners w ev) →
  (∀ ev, NoDup (listeners w' ev)) →
  (∀ u, u ∈ listeners w' "server-updates" → S u ∈ listeners w' "disconnect") →
  wf w'.
Proof.
  intros [Hev Hnd Hp Hh Hk] Eh Ek Hsub Hnd' Hp'. split.
  - intros ev f Hf. unfold listens_on. rewrite Eh. by apply Hev, Hsub.
  - done.
  - done.
  - rewrite Eh. apply Hh.
  - rewrite Eh, Ek. apply Hk.
Qed.

Lemma wf_set_connected (b : bool) (w : world) : wf w → wf (set_connected b w).
Proof. intros H. by eapply wf_shrink; [done..|apply H|apply H]. Qed.

Lemma wf_off_updates (u : fnref) (w : world) :
  wf w → wf (socket_off "server-updates" u w).
Proof.
  intros H. eapply wf_shrink; [done|apply heap_socket_off|apply hooks_socket_off|..].
  - intros ev x. rewrite listeners_socket_off. case_decide; subst;
      eauto using remove_first_subseteq.
  - intros ev. rewrite listeners_socket_off. case_decide; subst;
      eauto using remove_first_NoDup, wf_nodup.
  - intros x. rewrite !listeners_socket_off. simpl.
    intros Hx%remove_first_subseteq. by apply H.
Qed.

Lemma wf_off_connect (h : fnref) (w : world) :
  wf w → wf (socket_off "connect" h w).
Proof.
  intros H. eapply wf_shrink; [done|apply heap_socket_off|apply hooks_socket_off|..].
  - intros ev x. rewrite listeners_socket_off. case_decide; subst;
      eauto using remove_first_subseteq.
  - intros ev. rewrite listeners_socket_off. case_decide; subst;
      eauto using remove_first_NoDup, wf_nodup.
  - intros x. rewrite !listeners_socket_off. simpl. by apply H.
Qed.

Lemma wf_off_pair (u : fnref) (w : world) :
  wf w → wf (socket_off "disconnect" (S u) (socket_off "server-updates" u w)).
Proof.
  intros H. eapply wf_shrink; [done|by rewrite !heap_socket_off
                                    |by rewrite !hooks_socket_off|..].
  - intros ev x. rewrite !listeners_socket_off.
    repeat (case_decide; subst); try done;
      eauto using remove_first_subseteq.
  - intros ev. rewrite !listeners_socket_off.
    repeat (case_decide; subst); try done;
      eauto using remove_first_NoDup, wf_nodup.
  - intros x. rewrite !listeners_socket_off. simpl.
    rewrite !remove_first_elem by apply H.
    intros [Hx Hne]. split; [by apply H|lia].
Qed.

Lemma wf_closure_effect (f : fnref) (c : closure) (a : args) (w : world) :
  wf w → heap w !! f = Some c → wf (closure_effect c a w).
Proof.
  intros H Hf. destruct c as [|h|cb|u dc|u d], a as [|r|m]; simpl;
    try done; try by apply wf_off_connect.
  - by apply wf_off_updates.
  - apply (wf_handle _ H) in Hf as [-> _]. by apply wf_off_pair.
  - apply (wf_handle _ H) in Hf as [-> _]. by apply wf_off_pair.
  - apply (wf_handle _ H) in Hf as [-> _]. by apply wf_off_pair.
Qed.

Lemma wf_call (f : fnref) (a : args) (w : world) : wf w → wf (call f a w).1.
Proof.
  intros H. rewrite call_eq. destruct (heap w !! f) as [c|] eqn:E; [|done].
  by eapply wf_closure_effect.
Qed.

Lemma heap_call (f : fnref) (a : args) (w : world) : heap (call f a w).1 = heap w.
Proof.
  rewrite call_eq. destruct (heap w !! f); [|done]. apply heap_closure_effect.
Qed.

Lemma listeners_call (f : fnref) (a : args) (w : world) (ev : string) (x : fnref) :
  x ∈ listeners (call f a w).1 ev → x ∈ listeners w ev.
Proof.
  rewrite call_eq. destruct (heap w !! f); [|done]. apply listeners_closure_effect.
Qed.

Lemma call_all_cons (f : fnref) (fs : list fnref) (a : args) (w : world) :
  call_all (f :: fs) a w
  = ((call_all fs a (call f a w).1).1, (call f a w).2 ++ (call_all fs a (call f a w).1).2).
Proof.
  simpl. destruct (call f a w) as [w1 t1]. simpl.
  by destruct (call_all fs a w1) as [w2 t2].
Qed.

Lemma wf_call_all (fs : list fnref) (a : args) (w : world) :
  wf w → wf (call_all fs a w).1.
Proof.
  revert w. induction fs as [|f fs IH]; intros w H; [done|].
  rewrite call_all_cons. simpl. by apply IH, wf_call.
Qed.

Lemma heap_call_all (fs : list fnref) (a : args) (w : world) :
  heap (call_all fs a w).1 = heap w.
Proof.
  revert w. induction fs as [|f fs IH]; intros w; [done|].
  rewrite call_all_cons. simpl. by rewrite IH, heap_call.
Qed.

Lemma listeners_call_all (fs : list fnref) (a : args) (w : world)
    (ev : string) (x : fnref) :
  x ∈ listeners (call_all fs a w).1 ev → x ∈ listeners w ev.
Proof.
  revert w. induction fs as [|f fs IH]; intros w; [done|].
  rewrite call_all_cons. simpl. intros Hx%IH. by eapply listeners_call.
Qed.

Lemma exec_subscribe (R : remote) (cb dc : callback) (w : world) :
  let n := length (heap w) in
  exec R (subscribe cb dc) w
  = (Resolved (S (S n)), subscribed cb dc w,
     [NewClosure (HandleUpdate cb); NewClosure (HandleDisconnect n dc);
      SocketOn "server-updates" n; SocketOn "disconnect" (S n);
      NewClosure (Unsubscribe n (S n))]).
Proof.
  unfold subscribe, subscribed. simpl.
  rewrite !length_app. simpl. rewrite !Nat.add_1_r.
  unfold listeners. simpl. rewrite lookup_insert_ne by done.
  by rewrite <- !app_assoc.
Qed.

Lemma listeners_subscribed (cb dc : callback) (w : world) (ev : string) :
  listeners (subscribed cb dc w) ev
  = if decide (ev = "server-updates") then listeners w ev ++ [length (heap w)]
    else if decide (ev = "disconnect") then listeners w ev ++ [S (length (heap w))]
    else listeners w ev.
Proof.
  unfold subscribed, listeners at 1. simpl.
  repeat case_decide; subst; try done.
  - by rewrite lookup_insert_ne, lookup_insert_eq.
  - by rewrite lookup_insert_eq.
  - by rewrite !lookup_insert_ne.
Qed.

Lemma heap_subscribed_old (cb dc : callback) (w : world) (f : fnref) (c : closure) :
  heap w !! f = Some c → heap (subscribed cb dc w) !! f = Some c.
Proof. intros H. simpl. by apply lookup_app_l_Some. Qed.

Lemma heap_subscribed (cb dc : callback) (w : world) (f : fnref) (c : closure) :
  heap (subscribed cb dc w) !! f = Some c →
  heap w !! f = Some c
  ∨ (f = length (heap w) ∧ c = HandleUpdate cb)
  ∨ (f = S (length (heap w)) ∧ c = HandleDisconnect (length (heap w)) dc)
  ∨ (f = S (S (length (heap w)))
     ∧ c = Unsubscribe (length (heap w)) (S (length (heap w)))).
Proof.
  simpl. intros H. apply lookup_app_Some in H as [H|[Hle H]]; [by left|right].
  destruct (f - length (heap w)) as [|[|[|k]]] eqn:E; simpl in H;
    try (injection H as <-).
  - left. split; [lia|done].
  - right; left. split; [lia|done].
  - right; right. split; [lia|done].
  - done.
Qed.

Lemma wf_subscribed (cb dc : callback) (w : world) : wf w → wf (subscribed cb dc w).
Proof.
  intros H.
  assert (∀ ev x, x ∈ listeners w ev → x < length (heap w)) as Hlt.
  { intros ev x Hx. eapply listens_on_lt. by apply H. }
  assert (∀ ev x, listens_on w ev x → listens_on (subscribed cb dc w) ev x) as Hold.
  { intros ev x. unfold listens_on.
    destruct (heap w !! x) as [c|] eqn:E; [|done].
    by rewrite (heap_subscribed_old _ _ _ _ _ E). }
  split.
  - intros ev f. rewrite listeners_subscribed.
    repeat case_decide; subst; rewrite ?elem_of_app, ?list_elem_of_singleton.
    + intros [Hf| ->]; [by apply Hold, H|].
      unfold listens_on. simpl.
      by rewrite lookup_app_r, Nat.sub_diag by lia.
    + intros [Hf| ->]; [by apply Hold, H|].
      unfold listens_on. simpl.
      rewrite lookup_app_r by lia.
      by replace (S (length (heap w)) - length (heap w)) with 1 by lia.
    + intros Hf. by apply Hold, H.
  - intros ev. rewrite listeners_subscribed.
    repeat case_decide; subst; try apply H.
    + apply NoDup_app. split; [apply H|]. split; [|apply NoDup_singleton].
      intros x Hx ->%list_elem_of_singleton. apply Hlt in Hx. lia.
    + apply NoDup_app. split; [apply H|]. split; [|apply NoDup_singleton].
      intros x Hx ->%list_elem_of_singleton. apply Hlt in Hx. lia.
  - intros u. rewrite !listeners_subscribed. simpl.
    rewrite !elem_of_app, !list_elem_of_singleton.
    intros [Hu| ->]; [left; by apply H|by right].
  - intros f u d Hf. apply heap_subscribed in Hf as [Hf|[[_ ?]|[[_ ?]|[_ Hc]]]];
      try done.
    + destruct (wf_handle _ H _ _ _ Hf) as [-> [cb' Hu]].
      split; [done|]. exists cb'. by apply heap_subscribed_old.
    + injection Hc as -> ->. split; [done|]. exists cb. simpl.
      by rewrite lookup_app_r, Nat.sub_diag by lia.
  - intros f Hf. simpl in Hf. destruct (wf_hooks _ H f Hf) as [h Hh].
    exists h. by apply heap_subscribed_old.
Qed.

(** * Steps of the client *)

Lemma method_eq {A} (R : remote) (p : prog A) (w : world) :
  method R p w = ((exec R p w).1.2, by_ None (performed (exec R p w))).
Proof. unfold method, performed. by destruct (exec R p w) as [[??]?]. Qed.

Lemma exec_pull_quiet (docId : string) (st : option bytes) (R : remote) (w : world) :
  (exec R (pull docId st) w).1.2 = w
  ∧ Forall quiet (performed (exec R (pull docId st) w)).
Proof.
  unfold pull, performed. simpl.
  destruct (acknowledge R _ _) as [r|e]; simpl; [|by repeat constructor].
  simpl in r. destruct r as [error|missing state]; simpl;
    [|by repeat constructor].
  destruct error as [| |b|z|s|fs]; simpl; try by repeat constructor.
  destruct (strict_eq_str _ _); simpl; by repeat constructor.
Qed.

Lemma exec_push_quiet (docId : string) (u : bytes) (R : remote) (w : world) :
  (exec R (push docId u) w).1.2 = w
  ∧ Forall quiet (performed (exec R (push docId u) w)).
Proof.
  unfold push, performed. simpl.
  destruct (acknowledge R _ _) as [r|e]; simpl; [|by repeat constructor].
  destruct (truthy _); simpl; by repeat constructor.
Qed.

Lemma step_pull (docId : string) (st : option bytes) (r : outcome load_response)
    (w : world) :
  ∃ t, step (CallPull docId st r) w = (w, by_ None t) ∧ Forall quiet t.
Proof.
  simpl. rewrite method_eq.
  destruct (exec_pull_quiet docId st (replying_load r) w) as [-> H]. eauto.
Qed.

Lemma step_push (docId : string) (u : bytes) (r : outcome update_response)
    (w : world) :
  ∃ t, step (CallPush docId u r) w = (w, by_ None t) ∧ Forall quiet t.
Proof.
  simpl. rewrite method_eq.
  destruct (exec_push_quiet docId u (replying_update r) w) as [-> H]. eauto.
Qed.

Lemma step_subscribe (cb dc : callback) (w : world) :
  let n := length (heap w) in
  step (CallSubscribe cb dc) w
  = (subscribed cb dc w,
     by_ None [NewClosure (HandleUpdate cb); NewClosure (HandleDisconnect n dc);
               SocketOn "server-updates" n; SocketOn "disconnect" (S n);
               NewClosure (Unsubscribe n (S n))]).
Proof. simpl. rewrite method_eq. unfold performed. by rewrite exec_subscribe. Qed.

Lemma wf_step (i : input) (w : world) : wf w → wf (step i w).1.
Proof.
  intros H. destruct i as [|r|m|cb dc|f| |docId st r|docId u r].
  - apply wf_call_all. by apply wf_set_connected.
  - apply wf_call_all. by apply wf_set_connected.
  - by apply wf_call_all.
  - rewrite step_subscribe. by apply wf_subscribed.
  - simpl. destruct (heap w !! f) as [[]|]; try done. by apply wf_call.
  - by apply wf_call_all.
  - by destruct (step_pull docId st r w) as (t & -> & _).
  - by destruct (step_push docId u r w) as (t & -> & _).
Qed.

Lemma run_cons (i : input) (ins : list input) (w : world) :
  run (i :: ins) w
  = ((run ins (step i w).1).1, (step i w).2 ++ (run ins (step i w).1).2).
Proof.
  simpl. destruct (step i w) as [w1 t1]. simpl.
  by destruct (run ins w1) as [w2 t2].
Qed.

Lemma wf_run (ins : list input) (w : world) : wf w → wf (run ins w).1.
Proof.
  revert w. induction ins as [|i ins IH]; intros w H; [done|].
  rewrite run_cons. simpl. by apply IH, wf_step.
Qed.

Lemma construct_eq (c : bool) :
  construct c
  = (World c {["connect" := [0]]} [HandleConnect; CleanupHook 0] [1],
     by_ None ([NewClosure HandleConnect; SocketOn "connect" 0; SocketConnected]
               ++ [if c then SocketEmit "client-handshake-sync" workspaceId
                   else SocketConnect]
               ++ [NewClosure (CleanupHook 0); CleanupAdd 1])).
Proof. by destruct c. Qed.

Lemma wf_construct (c : bool) : wf (construct c).1.
Proof.
  rewrite construct_eq. simpl.
  assert (∀ ev, listeners (World c {["connect" := [0]]}
                                 [HandleConnect; CleanupHook 0] [1]) ev
                = if decide (ev = "connect") then [0] else []) as Hl.
  { intros ev. unfold listeners. simpl. case_decide; subst.
    - by rewrite lookup_singleton_eq.
    - by rewrite lookup_singleton_ne. }
  split.
  - intros ev f. rewrite Hl. case_decide; subst; [|set_solver].
    by intros ->%list_elem_of_singleton.
  - intros ev. rewrite Hl. case_decide; [apply NoDup_singleton|constructor].
  - intros u. rewrite Hl. simpl. set_solver.
  - intros [|[|f]] u d; simpl; done.
  - intros f ->%list_elem_of_singleton. by exists 0.
Qed.

Lemma wf_after (c : bool) (ins : list input) : wf (after c ins).
Proof. apply wf_run, wf_construct. Qed.

(** * Traces *)

Lemma ops_by_app (h : fnref) (t1 t2 : trace) :
  ops_by h (t1 ++ t2) = ops_by h t1 ++ ops_by h t2.
Proof. apply omap_app. Qed.

Lemma ops_by_same (h : fnref) (t : list op) : ops_by h (by_ (Some h) t) = t.
Proof.
  induction t as [|o t IH]; [done|]. unfold ops_by, by_ in *. simpl.
  case_decide; [|done]. f_equal. exact IH.
Qed.

Lemma ops_by_other (h : fnref) (who : option fnref) (t : list op) :
  who ≠ Some h → ops_by h (by_ who t) = [].
Proof.
  intros Hne. induction t as [|o t IH]; [done|]. unfold ops_by, by_ in *. simpl.
  case_decide; [done|exact IH].
Qed.

Lemma call_trace_eq (f : fnref) (a : args) (w : world) :
  (call f a w).2 = call_trace w a f.
Proof. rewrite call_eq. unfold call_trace. by destruct (heap w !! f). Qed.

Lemma call_all_trace (fs : list fnref) (a : args) (w : world) :
  (call_all fs a w).2 = fs ≫= call_trace w a.
Proof.
  revert w. induction fs as [|f fs IH]; intros w; [done|].
  rewrite call_all_cons. simpl. rewrite IH, call_trace_eq. f_equal.
  unfold call_trace. by rewrite heap_call.
Qed.

Lemma ops_by_call_trace (h f : fnref) (a : args) (w : world) :
  ops_by h (call_trace w a f)
  = if decide (f = h) then default [] (flip closure_ops a <$> heap w !! h) else [].
Proof.
  unfold call_trace. case_decide as E.
  - subst f. destruct (heap w !! h); [apply ops_by_same|done].
  - destruct (heap w !! f); [|done]. apply ops_by_other. congruence.
Qed.

Lemma ops_by_absent (h : fnref) (fs : list fnref) (a : args) (w : world) :
  h ∉ fs → ops_by h (fs ≫= call_trace w a) = [].
Proof.
  induction fs as [|f fs IH]; [done|]. intros Hh.
  rewrite bind_cons, ops_by_app, ops_by_call_trace.
  rewrite decide_False by set_solver. apply IH. set_solver.
Qed.

(** A listener that is registered once is called once. *)
Lemma ops_by_present (h : fnref) (c : closure) (fs : list fnref) (a : args)
    (w : world) :
  NoDup fs → h ∈ fs → heap w !! h = Some c →
  ops_by h (fs ≫= call_trace w a) = closure_ops c a.
Proof.
  intros Hnd Hh Hc. induction Hnd as [|f fs Hf Hnd IH]; [set_solver|].
  rewrite bind_cons, ops_by_app, ops_by_call_trace.
  apply elem_of_cons in Hh as [<-|Hh].
  - rewrite decide_True by done. rewrite Hc. simpl.
    by rewrite ops_by_absent, app_nil_r.
  - rewrite decide_False by set_solver. by apply IH.
Qed.

Lemma update_calls_app (t1 t2 : trace) :
  update_calls (t1 ++ t2) = update_calls t1 ++ update_calls t2.
Proof. apply omap_app. Qed.

Lemma update_calls_none (who : option fnref) (t : list op) :
  Forall (λ o, match o with CallUpdate _ _ _ => False | _ => True end) t →
  update_calls (by_ who t) = [].
Proof.
  induction 1 as [|o t Ho Ht IH]; [done|]. unfold update_calls, by_ in *. simpl.
  destruct o; try done; exact IH.
Qed.

(** Only a [handleUpdate] given a broadcast for the bound collection calls
    [onUpdate]. *)
Lemma update_calls_call_trace (w : world) (a : args) (f : fnref) :
  update_calls (call_trace w a f) ≠ [] →
  ∃ cb m, heap w !! f = Some (HandleUpdate cb) ∧ a = Broadcast m
          ∧ m_workspaceId m = workspaceId.
Proof.
  unfold call_trace. destruct (heap w !! f) as [c|]; [|done].
  destruct c as [|h|cb|u dc|u d], a as [|r|m]; try (by intros []).
  rewrite closure_ops_update.
  destruct (String.eqb_spec (m_workspaceId m) workspaceId); [eauto|by intros []].
Qed.

Lemma update_calls_delivered (who : option fnref) (cb : callback) (guid : string)
    (us : list string) :
  update_calls (by_ who ((λ u, CallUpdate cb guid (base64ToUint8Array u)) <$> us))
  = (λ u, (cb, guid, base64ToUint8Array u)) <$> us.
Proof.
  induction us as [|u us IH]; [done|]. unfold update_calls, by_ in *. simpl.
  f_equal. exact IH.
Qed.

Lemma update_calls_bind (w : world) (a : args) (fs : list fnref) :
  (∀ f, f ∈ fs → update_calls (call_trace w a f) = []) →
  update_calls (fs ≫= call_trace w a) = [].
Proof.
  induction fs as [|f fs IH]; [done|]. intros H.
  rewrite bind_cons, update_calls_app, H, IH; set_solver.
Qed.

Lemma heap_step (i : input) (w : world) (f : fnref) (c : closure) :
  heap w !! f = Some c → heap (step i w).1 !! f = Some c.
Proof.
  intros H. destruct i as [|r|m|cb dc|g| |docId st r|docId u r].
  - unfold step, fire. by rewrite heap_call_all.
  - unfold step, fire. by rewrite heap_call_all.
  - unfold step, fire. by rewrite heap_call_all.
  - rewrite step_subscribe. by apply heap_subscribed_old.
  - simpl. destruct (heap w !! g) as [[]|]; try done. by rewrite heap_call.
  - simpl. by rewrite heap_call_all.
  - by destruct (step_pull docId st r w) as (t & -> & _).
  - by destruct (step_push docId u r w) as (t & -> & _).
Qed.

(** A step attaches none of the function objects that already exist. *)
Lemma listeners_step (i : input) (w : world) (ev : string) (x : fnref) :
  x ∈ listeners (step i w).1 ev → x ∈ listeners w ev ∨ length (heap w) ≤ x.
Proof.
  destruct i as [|r|m|cb dc|g| |docId st r|docId u r].
  - intros H%listeners_call_all. by left.
  - intros H%listeners_call_all. by left.
  - intros H%listeners_call_all. by left.
  - rewrite step_subscribe. simpl. rewrite listeners_subscribed.
    repeat case_decide; rewrite ?elem_of_app, ?list_elem_of_singleton;
      intros; destruct_or?; subst; eauto with lia.
  - simpl. destruct (heap w !! g) as [[]|]; eauto.
    intros H%listeners_call. by left.
  - intros H%listeners_call_all. by left.
  - destruct (step_pull docId st r w) as (t & -> & _). by left.
  - destruct (step_push docId u r w) as (t & -> & _). by left.
Qed.

(** Every [handleDisconnect] called detaches its [handleUpdate]. *)
Lemma call_all_disconnect (ds : list fnref) (reason : string) (w : world)
    (x : fnref) :
  wf w → (∀ d, d ∈ ds → listens_on w "disconnect" d) →
  x ∈ listeners (call_all ds (Reason reason) w).1 "server-updates" →
  x ∈ listeners w "server-updates" ∧ S x ∉ ds.
Proof.
  revert w. induction ds as [|d ds IH]; intros w Hwf Hds; [set_solver|].
  rewrite call_all_cons. simpl. intros Hx.
  apply IH in Hx as [Hx Hnot].
  - pose proof (Hds d (list_elem_of_here _ _)) as Hd.
    rewrite call_eq in Hx. unfold listens_on in Hd.
    destruct (heap w !! d) as [[|?|?|u dc|??]|]; try done.
    destruct Hd as [_ ->]. simpl in Hx.
    rewrite listeners_socket_off, decide_True in Hx by done.
    apply remove_first_elem in Hx as [Hx Hne]; [|apply Hwf].
    split; [done|]. rewrite not_elem_of_cons. split; [lia|done].
  - by apply wf_call.
  - intros d' Hd'. unfold listens_on. rewrite heap_call.
    apply Hds. by right.
Qed.

Lemma fire_disconnect_detaches (reason : string) (w : world) :
  wf w → listeners (fire "disconnect" (Reason reason) w).1 "server-updates" = [].
Proof.
  intros Hwf. apply elem_of_nil_inv. intros x Hx.
  apply call_all_disconnect in Hx as [Hx Hnot]; [|done|].
  - by apply Hnot, Hwf.
  - intros d. apply Hwf.
Qed.

Lemma update_calls_quiet (t : list op) :
  Forall quiet t → update_calls (by_ None t) = [].
Proof.
  intros H. apply update_calls_none. eapply Forall_impl; [done|].
  by intros [].
Qed.

Lemma update_calls_call_all (fs : list fnref) (a : args) (w : world) :
  (∀ m, a ≠ Broadcast m) → update_calls (call_all fs a w).2 = [].
Proof.
  intros Ha. rewrite call_all_trace. apply update_calls_bind. intros f _.
  destruct (update_calls (call_trace w a f)) eqn:E; [done|].
  destruct (update_calls_call_trace w a f) as (?&m&_&->&_); [by rewrite E|].
  by destruct (Ha m).
Qed.

(** With no [handleUpdate] attached, nothing but [subscribe] brings
    [onUpdate] calls back. *)
Lemma step_no_updates (i : input) (w : world) :
  listeners w "server-updates" = [] → is_subscribe i = false →
  listeners (step i w).1 "server-updates" = [] ∧ update_calls (step i w).2 = [].
Proof.
  intros Hl Hi. split.
  - apply elem_of_nil_inv. intros x Hx.
    assert (x ∈ listeners w "server-updates") as Hx';
      [|rewrite Hl in Hx'; by apply not_elem_of_nil in Hx'].
    destruct i as [|r|m|cb dc|g| |docId st r|docId u r]; try done.
    + by apply listeners_call_all in Hx.
    + by apply listeners_call_all in Hx.
    + by apply listeners_call_all in Hx.
    + simpl in Hx. destruct (heap w !! g) as [[]|]; try done.
      by apply listeners_call in Hx.
    + by apply listeners_call_all in Hx.
    + destruct (step_pull docId st r w) as (t & E & _). by rewrite E in Hx.
    + destruct (step_push docId u r w) as (t & E & _). by rewrite E in Hx.
  - destruct i as [|r|m|cb dc|g| |docId st r|docId u r]; try done.
    + by apply update_calls_call_all.
    + by apply update_calls_call_all.
    + unfold step, fire. by rewrite Hl.
    + simpl. destruct (heap w !! g) as [[]|]; try done.
      rewrite call_trace_eq.
      destruct (update_calls (call_trace w NoArgs g)) eqn:E; [done|].
      destruct (update_calls_call_trace w NoArgs g) as (?&m&_&?&_);
        [by rewrite E|done].
    + by apply update_calls_call_all.
    + destruct (step_pull docId st r w) as (t & -> & Hq).
      by apply update_calls_quiet.
    + destruct (step_push docId u r w) as (t & -> & Hq).
      by apply update_calls_quiet.
Qed.

Lemma run_no_updates (ins : list input) (w : world) :
  listeners w "server-updates" = [] → forallb (negb ∘ is_subscribe) ins = true →
  update_calls (run ins w).2 = [].
Proof.
  revert w. induction ins as [|i ins IH]; intros w Hl Hins; [done|].
  simpl in Hins. apply andb_true_iff in Hins as [Hi Hins].
  apply negb_true_iff in Hi.
  destruct (step_no_updates i w Hl Hi) as [Hl' Ht].
  rewrite run_cons. simpl. rewrite update_calls_app, Ht. simpl. by apply IH.
Qed.

(** A [handleUpdate] that is detached is never called again. *)
Lemma step_detached (i : input) (w : world) (u : fnref) (cb : callback) :
  wf w → heap w !! u = Some (HandleUpdate cb) → (∀ ev, u ∉ listeners w ev) →
  ops_by u (step i w).2 = [] ∧ (∀ ev, u ∉ listeners (step i w).1 ev).
Proof.
  intros Hwf Hu Hout. split.
  - destruct i as [|r|m|cb' dc|g| |docId st r|docId upd r].
    + unfold step, fire. rewrite call_all_trace. apply ops_by_absent, Hout.
    + unfold step, fire. rewrite call_all_trace. apply ops_by_absent, Hout.
    + unfold step, fire. rewrite call_all_trace. apply ops_by_absent, Hout.
    + rewrite step_subscribe. by apply ops_by_other.
    + simpl. destruct (heap w !! g) as [[]|] eqn:E; try done.
      rewrite call_trace_eq, ops_by_call_trace.
      case_decide; [congruence|done].
    + simpl. rewrite call_all_trace. apply ops_by_absent.
      intros [h Hh]%(wf_hooks _ Hwf). congruence.
    + destruct (step_pull docId st r w) as (t & -> & _). by apply ops_by_other.
    + destruct (step_push docId upd r w) as (t & -> & _). by apply ops_by_other.
  - intros ev [Hin|Hge]%listeners_step; [by eapply Hout|].
    apply lookup_lt_Some in Hu. lia.
Qed.

Lemma run_detached (ins : list input) (w : world) (u : fnref) (cb : callback) :
  wf w → heap w !! u = Some (HandleUpdate cb) → (∀ ev, u ∉ listeners w ev) →
  ops_by u (run ins w).2 = [].
Proof.
  revert w. induction ins as [|i ins IH]; intros w Hwf Hu Hout; [done|].
  destruct (step_detached i w u cb Hwf Hu Hout) as [Ht Hout'].
  rewrite run_cons. simpl. rewrite ops_by_app, Ht. simpl.
  apply IH; [by apply wf_step|by apply heap_step|done].
Qed.

Lemma call_unsubscribe (f u d : fnref) (w : world) :
  heap w !! f = Some (Unsubscribe u d) →
  step (CallHandle f) w
  = (socket_off "disconnect" d (socket_off "server-updates" u w),
     by_ (Some f) [SocketOff "server-updates" u; SocketOff "disconnect" d]).
Proof. intros H. simpl. rewrite H, call_eq, H. done. Qed.

Lemma listeners_unsubscribed (u d : fnref) (w : world) (ev : string) (x : fnref) :
  wf w →
  x ∈ listeners (socket_off "disconnect" d (socket_off "server-updates" u w)) ev
  ↔ x ∈ listeners w ev ∧ ¬ (ev = "server-updates" ∧ x = u)
                       ∧ ¬ (ev = "disconnect" ∧ x = d).
Proof.
  intros Hwf. rewrite !listeners_socket_off.
  repeat (case_decide; subst); try done.
  - rewrite remove_first_elem by apply Hwf. naive_solver.
  - rewrite remove_first_elem by apply Hwf. naive_solver.
  - naive_solver.
Qed.

(** * Handshakes *)

Lemma emitted_app (ev : string) (t1 t2 : trace) :
  emitted ev (t1 ++ t2) = emitted ev t1 ++ emitted ev t2.
Proof. apply omap_app. Qed.

Lemma emitted_none (ev : string) (who : option fnref) (t : list op) :
  Forall (λ o, match o with SocketEmit _ _ => False | _ => True end) t →
  emitted ev (by_ who t) = [].
Proof.
  induction 1 as [|o t Ho Ht IH]; [done|]. unfold emitted, by_ in *. simpl.
  destruct o; try done; exact IH.
Qed.

Lemma emitted_quiet (ev : string) (t : list op) :
  Forall quiet t → emitted ev (by_ None t) = [].
Proof.
  intros H. apply emitted_none. eapply Forall_impl; [done|]. by intros [].
Qed.

(** Of all function objects only [handleConnect] emits a handshake. *)
Lemma emitted_call_trace (w : world) (a : args) (f : fnref) :
  emitted "client-handshake-sync" (call_trace w a f)
  = match heap w !! f with
    | Some HandleConnect => [workspaceId]
    | _ => []
    end.
Proof.
  unfold call_trace. destruct (heap w !! f) as [c|]; [|done].
  destruct c as [|h|cb|u dc|u d], a as [|r|m]; try done.
  rewrite closure_ops_update. destruct (String.eqb _ _); [|done].
  apply emitted_none. apply Forall_fmap, Forall_forall. by intros.
Qed.

Lemma emitted_bind (w : world) (a : args) (fs : list fnref) :
  (∀ f, f ∈ fs → heap w !! f ≠ Some HandleConnect) →
  emitted "client-handshake-sync" (fs ≫= call_trace w a) = [].
Proof.
  induction fs as [|f fs IH]; [done|]. intros H.
  rewrite bind_cons, emitted_app, emitted_call_trace, IH by set_solver.
  pose proof (H f (list_elem_of_here _ _)) as Hf.
  by destruct (heap w !! f) as [[]|].
Qed.

Lemma connect_listeners_call_all (fs : list fnref) (a : args) (w : world) :
  (∀ f h, f ∈ fs → heap w !! f ≠ Some (CleanupHook h)) →
  listeners (call_all fs a w).1 "connect" = listeners w "connect".
Proof.
  revert w. induction fs as [|f fs IH]; intros w H; [done|].
  rewrite call_all_cons. simpl. rewrite IH.
  - rewrite call_eq. pose proof (λ h, H f h (list_elem_of_here _ _)) as Hf.
    destruct (heap w !! f) as [c|]; [|done].
    destruct c as [|h|cb|u dc|u d], a as [|r|m]; simpl;
      rewrite ?listeners_socket_off; repeat case_decide; try done;
      by destruct (Hf h).
  - intros g h Hg. rewrite heap_call. apply H. by right.
Qed.

Lemma listens_on_not_hook (w : world) (ev : string) (f h : fnref) :
  listens_on w ev f → heap w !! f ≠ Some (CleanupHook h).
Proof. unfold listens_on. by intros H E; rewrite E in H. Qed.

Lemma listens_on_not_connect (w : world) (ev : string) (f : fnref) :
  ev ≠ "connect" → listens_on w ev f → heap w !! f ≠ Some HandleConnect.
Proof. unfold listens_on. by intros Hne H E; rewrite E in H. Qed.

(** Until teardown, a connect event and nothing else emits a handshake,
    exactly one, for the bound collection. *)
Lemma step_announcing (i : input) (w : world) :
  wf w → announcing w → is_teardown i = false →
  announcing (step i w).1
  ∧ emitted "client-handshake-sync" (step i w).2
    = if is_connect i then [workspaceId] else [].
Proof.
  intros Hwf [Hl H0] Hi. split; [split|].
  - destruct i as [|r|m|cb dc|g| |docId st r|docId u r]; try done.
    + unfold step, fire. rewrite connect_listeners_call_all; [done|].
      intros f h Hf. eapply listens_on_not_hook.
      by apply (wf_events _ (wf_set_connected true w Hwf)).
    + unfold step, fire. rewrite connect_listeners_call_all; [done|].
      intros f h Hf. eapply listens_on_not_hook.
      by apply (wf_events _ (wf_set_connected false w Hwf)).
    + unfold step, fire. rewrite connect_listeners_call_all; [done|].
      intros f h Hf. eapply listens_on_not_hook. by apply Hwf.
    + rewrite step_subscribe. simpl. by rewrite listeners_subscribed.
    + simpl. destruct (heap w !! g) as [[| | | |u d]|] eqn:E; try done.
      rewrite call_eq, E. simpl. by rewrite !listeners_socket_off.
    + by destruct (step_pull docId st r w) as (t & -> & _).
    + by destruct (step_push docId u r w) as (t & -> & _).
  - by apply heap_step.
  - destruct i as [|r|m|cb dc|g| |docId st r|docId u r]; try done.
    + unfold step, fire. rewrite call_all_trace.
      change (listeners (set_connected true w) "connect") with (listeners w "connect").
      rewrite Hl. simpl. rewrite app_nil_r, emitted_call_trace.
      change (heap (set_connected true w)) with (heap w). by rewrite H0.
    + unfold step, fire. rewrite call_all_trace. apply emitted_bind.
      intros f Hf. eapply listens_on_not_connect; [|by apply Hwf]. done.
    + unfold step, fire. rewrite call_all_trace. apply emitted_bind.
      intros f Hf. eapply listens_on_not_connect; [|by apply Hwf]. done.
    + simpl. destruct (heap w !! g) as [[| | | |u d]|] eqn:E; try done.
      by rewrite call_trace_eq, emitted_call_trace, E.
    + destruct (step_pull docId st r w) as (t & -> & Hq). by apply emitted_quiet.
    + destruct (step_push docId u r w) as (t & -> & Hq). by apply emitted_quiet.
Qed.

Lemma run_announcing (ins : list input) (w : world) :
  wf w → announcing w → forallb (negb ∘ is_teardown) ins = true →
  announcing (run ins w).1
  ∧ emitted "client-handshake-sync" (run ins w).2
    = replicate (connects ins) workspaceId.
Proof.
  revert w. induction ins as [|i ins IH]; intros w Hwf Ha Hins; [done|].
  simpl in Hins. apply andb_true_iff in Hins as [Hi Hins].
  apply negb_true_iff in Hi.
  destruct (step_announcing i w Hwf Ha Hi) as [Ha' Ht].
  destruct (IH (step i w).1 (wf_step i w Hwf) Ha' Hins) as [Ha'' Ht'].
  rewrite run_cons. simpl. split; [done|].
  rewrite emitted_app, Ht, Ht'. unfold connects. simpl.
  by destruct (is_connect i).
Qed.

Lemma announcing_construct (c : bool) : announcing (construct c).1.
Proof. rewrite construct_eq. done. Qed.

Lemma cycles_connects (reason : string) (n : nat) :
  forallb (negb ∘ is_teardown) (cycles reason n) = true
  ∧ connects (cycles reason n) = n.
Proof.
  induction n as [|n [IH1 IH2]]; [done|]. split; [done|].
  unfold connects in *. simpl. by rewrite IH2.
Qed.

(** * The claims about live delivery *)

(** C3: while the [handleUpdate] that [subscribe(onUpdate, onDisconnect)]
    created is attached, a broadcast for another collection makes it call
    nothing, and no [onUpdate] is called at all; a broadcast for the bound
    collection makes it call [onUpdate] once per entry of the update list,
    in array order, each time with the broadcast's document id and the
    decoded entry, and when it is the only one attached these are all the
    [onUpdate] calls the broadcast causes. *)
Theorem broadcast_delivery (c : bool) (ins : list input) (h : fnref)
    (onUpdate : callback) (m : message) :
  let w := after c ins in
  heap w !! h = Some (HandleUpdate onUpdate) →
  h ∈ listeners w "server-updates" →
  let t := (step (ServerUpdates m) w).2 in
  (m_workspaceId m ≠ workspaceId → ops_by h t = [] ∧ update_calls t = [])
  ∧ (m_workspaceId m = workspaceId →
     ops_by h t
     = (λ u, CallUpdate onUpdate (m_guid m) (base64ToUint8Array u)) <$> m_updates m)
  ∧ (m_workspaceId m = workspaceId → listeners w "server-updates" = [h] →
     update_calls t
     = (λ u, (onUpdate, m_guid m, base64ToUint8Array u)) <$> m_updates m).
Proof.
  intros w Hh Hin t. subst t. unfold step, fire.
  rewrite call_all_trace.
  rewrite (ops_by_present h (HandleUpdate onUpdate)); [|apply wf_after|done..].
  rewrite closure_ops_update. split; [|split].
  - intros Hne. destruct (String.eqb_spec (m_workspaceId m) workspaceId); [done|].
    split; [done|]. apply update_calls_bind. intros f _.
    destruct (update_calls (call_trace w (Broadcast m) f)) eqn:E; [done|].
    destruct (update_calls_call_trace w (Broadcast m) f) as (?&m'&_&[= <-]&?);
      [by rewrite E|done].
  - intros ->. by rewrite String.eqb_refl.
  - intros Hm ->. simpl. rewrite app_nil_r. unfold call_trace. rewrite Hh.
    rewrite closure_ops_update, Hm, String.eqb_refl.
    apply update_calls_delivered.
Qed.

(** C7: when the channel disconnects while a subscription's
    [handleDisconnect] is attached, that handler first detaches the
    subscription's [handleUpdate] and then calls [onDisconnect], once, with
    the reason of the disconnect (the one [onDisconnect] call there is when
    no other subscription is attached); afterwards no [handleUpdate] is
    attached, and whatever follows short of a fresh [subscribe], matching
    broadcasts among it, calls no [onUpdate]. *)
Theorem disconnect_detaches (c : bool) (ins : list input)
    (handleUpdate handleDisconnect : fnref) (onDisconnect : callback)
    (reason : string) :
  let w := after c ins in
  heap w !! handleDisconnect = Some (HandleDisconnect handleUpdate onDisconnect) →
  handleDisconnect ∈ listeners w "disconnect" →
  let w' := (step (SocketDisconnects reason) w).1 in
  let t := (step (SocketDisconnects reason) w).2 in
  ops_by handleDisconnect t
  = [SocketOff "server-updates" handleUpdate; CallDisconnect onDisconnect reason]
  ∧ (listeners w "disconnect" = [handleDisconnect] →
     disconnect_calls t = [(onDisconnect, reason)])
  ∧ listeners w' "server-updates" = []
  ∧ ∀ ins', forallb (negb ∘ is_subscribe) ins' = true →
            update_calls (run ins' w').2 = [].
Proof.
  intros w Hd Hin w' t. subst w' t. unfold step, fire.
  pose proof (wf_set_connected false w (wf_after c ins)) as Hwf.
  split; [|split; [|split]].
  - rewrite call_all_trace.
    by rewrite (ops_by_present _ (HandleDisconnect handleUpdate onDisconnect));
      [|apply Hwf|done..].
  - intros Hl. rewrite call_all_trace.
    change (listeners (set_connected false w) "disconnect")
      with (listeners w "disconnect").
    rewrite Hl. simpl. rewrite app_nil_r. unfold call_trace.
    change (heap (set_connected false w)) with (heap w). by rewrite Hd.
  - by apply fire_disconnect_detaches.
  - intros ins' Hins'. apply run_no_updates; [|done].
    by apply fire_disconnect_detaches.
Qed.

(** C8: the function [subscribe] returned detaches the subscription's
    [handleUpdate] and its [handleDisconnect]; calling it again, once or
    many times, changes nothing; and once it has been called the
    subscription's [handleUpdate] performs nothing, so calls no [onUpdate],
    whatever follows, matching broadcasts among it; when it was the only
    one attached, no [onUpdate] at all is called until a fresh
    [subscribe]. *)
Theorem unsubscribe_idempotent (c : bool) (ins : list input)
    (handle handleUpdate handleDisconnect : fnref) :
  let w := after c ins in
  heap w !! handle = Some (Unsubscribe handleUpdate handleDisconnect) →
  let w1 := (step (CallHandle handle) w).1 in
  (handleUpdate ∉ listeners w1 "server-updates")
  ∧ (handleDisconnect ∉ listeners w1 "disconnect")
  ∧ (step (CallHandle handle) w1).1 = w1
  ∧ (∀ k, Nat.iter k (λ w, (step (CallHandle handle) w).1) w1 = w1)
  ∧ (∀ ins', ops_by handleUpdate (run ins' w1).2 = [])
  ∧ (∀ m, ops_by handleUpdate (step (ServerUpdates m) w1).2 = [])
  ∧ (∀ ins', listeners w "server-updates" = [handleUpdate] →
             forallb (negb ∘ is_subscribe) ins' = true →
             update_calls (run ins' w1).2 = []).
Proof.
  intros w Hf w1. subst w1. pose proof (wf_after c ins) as Hwf. fold w in Hwf.
  destruct (wf_handle _ Hwf _ _ _ Hf) as [-> [cb Hu]].
  rewrite (call_unsubscribe _ _ _ _ Hf). simpl.
  set (w1 := socket_off _ _ _).
  assert (wf w1) as Hwf1 by by apply wf_off_pair.
  assert (heap w1 = heap w) as Hheap by (unfold w1; by rewrite !heap_socket_off).
  assert (handleUpdate ∉ listeners w1 "server-updates") as Hu1.
  { unfold w1. rewrite !listeners_socket_off. simpl.
    rewrite remove_first_elem by apply Hwf. naive_solver. }
  assert (S handleUpdate ∉ listeners w1 "disconnect") as Hd1.
  { unfold w1. rewrite !listeners_socket_off. simpl.
    rewrite remove_first_elem by apply Hwf. naive_solver. }
  assert ((step (CallHandle handle) w1).1 = w1) as Hidem.
  { rewrite (call_unsubscribe handle handleUpdate (S handleUpdate));
      [|by rewrite Hheap]. simpl.
    rewrite (socket_off_absent "server-updates") by done.
    by rewrite socket_off_absent. }
  assert (∀ ev, handleUpdate ∉ listeners w1 ev) as Hout.
  { intros ev Hin. destruct (decide (ev = "server-updates")) as [->|Hne]; [done|].
    apply (wf_events _ Hwf1) in Hin. unfold listens_on in Hin.
    rewrite Hheap, Hu in Hin. done. }
  split; [done|]. split; [done|]. split; [done|]. split; [|split; [|split]].
  - induction k as [|k IH]; [done|]. simpl. by rewrite IH.
  - intros ins'. eapply run_detached; [done|by rewrite Hheap|done].
  - intros m. eapply (step_detached (ServerUpdates m)); [done|by rewrite Hheap|done].
  - intros ins' Hl Hins'. apply run_no_updates; [|done].
    unfold w1. rewrite !listeners_socket_off. simpl. rewrite Hl. simpl.
    by rewrite Nat.eqb_refl.
Qed.

(** C10: [subscribe] keeps the listeners it finds and attaches a fresh pair
    after them; while two subscriptions are attached a broadcast for the
    bound collection makes each of them call its own [onUpdate] for every
    entry; and the function returned for one detaches that subscription's
    two handlers and no other listener, the other subscription delivering as
    before. *)
Theorem subscriptions_stack (c : bool) (ins : list input)
    (handle1 u1 d1 u2 : fnref) (onUpdate1 onUpdate2 : callback) (m : message) :
  let w := after c ins in
  heap w !! handle1 = Some (Unsubscribe u1 d1) →
  heap w !! u1 = Some (HandleUpdate onUpdate1) →
  heap w !! u2 = Some (HandleUpdate onUpdate2) →
  u1 ∈ listeners w "server-updates" →
  u2 ∈ listeners w "server-updates" →
  u1 ≠ u2 →
  m_workspaceId m = workspaceId →
  let delivered cb :=
    (λ u, CallUpdate cb (m_guid m) (base64ToUint8Array u)) <$> m_updates m in
  let w' := (step (CallHandle handle1) w).1 in
  (∀ cb dc ev,
     listeners (step (CallSubscribe cb dc) w).1 ev
     = if decide (ev = "server-updates") then listeners w ev ++ [length (heap w)]
       else if decide (ev = "disconnect")
            then listeners w ev ++ [S (length (heap w))]
            else listeners w ev)
  ∧ ops_by u1 (step (ServerUpdates m) w).2 = delivered onUpdate1
  ∧ ops_by u2 (step (ServerUpdates m) w).2 = delivered onUpdate2
  ∧ (∀ ev x, x ∈ listeners w' ev
             ↔ x ∈ listeners w ev ∧ ¬ (ev = "server-updates" ∧ x = u1)
                                  ∧ ¬ (ev = "disconnect" ∧ x = d1))
  ∧ ops_by u2 (step (ServerUpdates m) w').2 = delivered onUpdate2
  ∧ ops_by u1 (step (ServerUpdates m) w').2 = [].
Proof.
  intros w Hf Hu1 Hu2 Hin1 Hin2 Hne Hm delivered w'.
  pose proof (wf_after c ins) as Hwf. fold w in Hwf.
  assert (∀ w0 u cb, wf w0 → heap w0 !! u = Some (HandleUpdate cb) →
            u ∈ listeners w0 "server-updates" →
            ops_by u (step (ServerUpdates m) w0).2 = delivered cb) as Hdel.
  { intros w0 u cb Hwf0 Hu Hin. unfold step, fire. rewrite call_all_trace.
    rewrite (ops_by_present u (HandleUpdate cb)); [|apply Hwf0|done..].
    by rewrite closure_ops_update, Hm, String.eqb_refl. }
  assert (∀ ev x, x ∈ listeners w' ev
             ↔ x ∈ listeners w ev ∧ ¬ (ev = "server-updates" ∧ x = u1)
                                  ∧ ¬ (ev = "disconnect" ∧ x = d1)) as Hl'.
  { intros ev x. unfold w'. rewrite (call_unsubscribe _ _ _ _ Hf). simpl.
    by apply listeners_unsubscribed. }
  assert (wf w') as Hwf' by by apply wf_step.
  assert (heap w' = heap w) as Hheap.
  { unfold w'. rewrite (call_unsubscribe _ _ _ _ Hf). simpl.
    by rewrite !heap_socket_off. }
  split; [|split; [|split; [|split; [|split]]]].
  - intros cb dc ev. rewrite step_subscribe. apply listeners_subscribed.
  - by apply Hdel.
  - by apply Hdel.
  - done.
  - apply Hdel; [done|by rewrite Hheap|]. apply Hl'. naive_solver.
  - unfold step, fire. rewrite call_all_trace. apply ops_by_absent.
    rewrite Hl'. naive_solver.
Qed.

(** * The claim about handshakes *)

(** C4: constructed on a connected channel the client emits one handshake,
    carrying the bound collection id, and does not ask to connect;
    constructed on a disconnected channel it emits none and asks the
    channel to connect, once; from then on and until teardown every connect
    event makes it emit exactly one handshake, so that the inputs that
    follow the construction produce as many handshakes as they hold connect
    events, and [n] disconnect/connect cycles produce [n]. *)
Theorem handshake_on_connect (c : bool) (ins : list input) (reason : string)
    (n : nat) :
  forallb (negb ∘ is_teardown) ins = true →
  emitted "client-handshake-sync" (construct c).2
  = (if c then [workspaceId] else [])
  ∧ connect_requests (construct c).2 = (if c then 0 else 1)
  ∧ emitted "client-handshake-sync" (step SocketConnects (after c ins)).2
    = [workspaceId]
  ∧ emitted "client-handshake-sync" (run ins (construct c).1).2
    = replicate (connects ins) workspaceId
  ∧ emitted "client-handshake-sync" (run (cycles reason n) (after c ins)).2
    = replicate n workspaceId.
Proof.
  intros Hins.
  destruct (run_announcing ins _ (wf_construct c) (announcing_construct c) Hins)
    as [Ha Ht].
  split; [by destruct c|]. split; [by destruct c|]. split; [|split].
  - by destruct (step_announcing SocketConnects (after c ins) (wf_after c ins) Ha).
  - done.
  - destruct (cycles_connects reason n) as [Hc Hn].
    destruct (run_announcing (cycles reason n) _ (wf_after c ins) Ha Hc) as [_ Hr].
    by rewrite Hr, Hn.
Qed.

(** * Further properties of the requests *)

(** X1: when the acknowledged request is rejected, as it is when the time
    bound elapses, [pull] and [push] fail with that same failure; they have
    logged the request and sent it once, and do nothing more: no retry, no
    second log entry, no change to the listeners. *)
Theorem request_failure_propagates (docId : string) (st : option bytes)
    (update : bytes) (e : exn) (w : world) :
  exec (replying_load (Rejected e)) (pull docId st) w
  = (Rejected e, w,
     [LoggerDebug "doc-load-v2";
      SocketEmitWithAck 30000 "doc-load-v2"
        (DocLoad workspaceId docId (uint8ArrayToBase64 <$> st))])
  ∧ exec (replying_update (Rejected e)) (push docId update) w
    = (Rejected e, w,
       [LoggerDebug "client-update-v2";
        SocketEmitWithAck 30000 "client-update-v2"
          (ClientUpdate workspaceId docId [uint8ArrayToBase64 update])]).
Proof. split; [by destruct st|done]. Qed.

(** X2: whatever the channel answers, [pull] resolves to [null] exactly
    when the answer is a reply whose [error] is an object with the code
    ['DOC_NOT_FOUND']; and a reply with an [error], whatever it holds, never
    makes [pull] resolve to data. *)
Theorem pull_null_iff (docId : string) (st : option bytes) (w : world)
    (a : outcome load_response) :
  let r := result (exec (replying_load a) (pull docId st) w) in
  (r = Resolved None
   ↔ ∃ fs, a = Resolved (LoadError (JObj fs))
           ∧ field "code" fs = JStr "DOC_NOT_FOUND")
  ∧ (∀ error d, a = Resolved (LoadError error) → r ≠ Resolved (Some d)).
Proof.
  intros r. subst r. unfold result, pull. simpl. split.
  - split.
    + destruct a as [[error|missing state]|e]; simpl; try done.
      destruct error as [| |b|z|s|fs]; simpl; try done.
      destruct (strict_eq_str (field "code" fs) "DOC_NOT_FOUND") eqn:E; [|done].
      intros _. exists fs. split; [done|].
      destruct (field "code" fs) as [| |b|z|s|fs']; try done.
      simpl in E. apply String.eqb_eq in E. by subst s.
    + intros (fs & -> & Hcode). simpl. by rewrite Hcode.
  - intros error d ->. simpl.
    destruct error as [| |b|z|s|fs]; simpl; try done.
    by destruct (strict_eq_str _ _).
Qed.

(** X3: a reply whose [error] is [undefined] or [null] makes [pull] fail
    with the TypeError of reading [code] from it; a reply whose [error] is a
    text, a number or a boolean makes [pull] fail with an error made of no
    message, so that the text is lost. *)
Theorem pull_malformed_error (docId : string) (st : option bytes) (w : world) :
  let pull_with error :=
    result (exec (replying_load (Resolved (LoadError error))) (pull docId st) w) in
  pull_with JUndefined = Rejected TypeError
  ∧ pull_with JNull = Rejected TypeError
  ∧ (∀ s, pull_with (JStr s) = Rejected (Error JUndefined))
  ∧ (∀ z, pull_with (JNum z) = Rejected (Error JUndefined))
  ∧ (∀ b, pull_with (JBool b) = Rejected (Error JUndefined)).
Proof.
  intros pull_with. subst pull_with. unfold result, pull. simpl.
  by repeat split.
Qed.

(** X4: whatever the channel answers, [pull] and [push] leave the socket as
    it is, listeners included, and perform nothing but logging and their
    acknowledged request: they attach and detach no listener, emit no other
    event and call no callback. *)
Theorem requests_touch_nothing (docId : string) (st : option bytes)
    (update : bytes) (R : remote) (w : world) :
  (exec R (pull docId st) w).1.2 = w
  ∧ Forall quiet (performed (exec R (pull docId st) w))
  ∧ (exec R (push docId update) w).1.2 = w
  ∧ Forall quiet (performed (exec R (push docId update) w)).
Proof.
  destruct (exec_pull_quiet docId st R w) as [H1 H2].
  destruct (exec_push_quiet docId update R w) as [H3 H4]. done.
Qed.

(** X5: the static client's [pull] performs one [fetch] and nothing else,
    whatever it is answered; when the [fetch] itself fails, [pull] fails
    with the same failure instead of resolving to [null]. *)
Theorem static_fetch_failure (docId : string) (R : remote) (e : exn) (w : world) :
  performed (exec R (static_pull docId) w)
  = [Fetch ("/api/workspaces/" +:+ workspaceId +:+ "/docs/" +:+ docId) "high"]
  ∧ (exec R (static_pull docId) w).1.2 = w
  ∧ result (exec (replying_fetch (Rejected e)) (static_pull docId) w)
    = Rejected e.
Proof.
  unfold static_pull, performed, result. simpl.
  destruct (respond R _) as [r|e']; simpl; [|done].
  by destruct (ok r).
Qed.

(** * Further properties of the listeners *)

Lemma run_invariant (P : world → Prop) :
  (∀ i w, wf w → P w → P (step i w).1) →
  ∀ ins w, wf w → P w → P (run ins w).1.
Proof.
  intros Hstep ins. induction ins as [|i ins IH]; intros w Hwf HP; [done|].
  rewrite run_cons. simpl. apply IH; [by apply wf_step|by apply Hstep].
Qed.

Lemma heap_run (ins : list input) (w : world) (f : fnref) (c : closure) :
  heap w !! f = Some c → heap (run ins w).1 !! f = Some c.
Proof.
  revert w. induction ins as [|i ins IH]; intros w H; [done|].
  rewrite run_cons. simpl. by apply IH, heap_step.
Qed.

Lemma hooks_closure_effect (c : closure) (a : args) (w : world) :
  hooks (closure_effect c a w) = hooks w.
Proof. destruct c, a; simpl; by rewrite ?hooks_socket_off. Qed.

Lemma hooks_call_all (fs : list fnref) (a : args) (w : world) :
  hooks (call_all fs a w).1 = hooks w.
Proof.
  revert w. induction fs as [|f fs IH]; intros w; [done|].
  rewrite call_all_cons. simpl. rewrite IH, call_eq.
  destruct (heap w !! f); [apply hooks_closure_effect|done].
Qed.

(** No method registers a teardown callback after the constructor. *)
Lemma hooks_step (i : input) (w : world) : hooks (step i w).1 = hooks w.
Proof.
  destruct i as [|r|m|cb dc|g| |docId st r|docId u r].
  - unfold step, fire. by rewrite hooks_call_all.
  - unfold step, fire. by rewrite hooks_call_all.
  - unfold step, fire. by rewrite hooks_call_all.
  - by rewrite step_subscribe.
  - simpl. destruct (heap w !! g) as [c|] eqn:E; [|done].
    destruct c; try done. rewrite call_eq, E. apply hooks_closure_effect.
  - simpl. by rewrite hooks_call_all.
  - by destruct (step_pull docId st r w) as (t & -> & _).
  - by destruct (step_push docId u r w) as (t & -> & _).
Qed.

Lemma hooks_after (c : bool) (ins : list input) :
  hooks (after c ins) = [1] ∧ heap (after c ins) !! 1 = Some (CleanupHook 0).
Proof.
  unfold after. split.
  - apply (run_invariant (λ w, hooks w = [1])); [|apply wf_construct|].
    + intros i w _ H. by rewrite hooks_step.
    + by rewrite construct_eq.
  - apply heap_run. by rewrite construct_eq.
Qed.

(** No step attaches a listener to ['connect']. *)
Lemma connect_listeners_step (i : input) (w : world) (x : fnref) :
  x ∈ listeners (step i w).1 "connect" → x ∈ listeners w "connect".
Proof.
  destruct i as [|r|m|cb dc|g| |docId st r|docId u r].
  - by intros H%listeners_call_all.
  - by intros H%listeners_call_all.
  - by intros H%listeners_call_all.
  - rewrite step_subscribe. simpl. by rewrite listeners_subscribed.
  - simpl. destruct (heap w !! g) as [[]|]; try done.
    by intros H%listeners_call.
  - by intros H%listeners_call_all.
  - by destruct (step_pull docId st r w) as (t & -> & _).
  - by destruct (step_push docId u r w) as (t & -> & _).
Qed.

Lemma connect_listeners_after (c : bool) (ins : list input) (x : fnref) :
  x ∈ listeners (after c ins) "connect" → x = 0.
Proof.
  revert x. unfold after.
  apply (run_invariant (λ w, ∀ x, x ∈ listeners w "connect" → x = 0));
    [|apply wf_construct|].
  - intros i w _ H x Hx. by apply H, (connect_listeners_step i).
  - rewrite construct_eq. unfold listeners. simpl.
    rewrite lookup_singleton_eq. simpl. by intros x ->%list_elem_of_singleton.
Qed.

Lemma step_teardown (c : bool) (ins : list input) :
  step Teardown (after c ins)
  = (socket_off "connect" 0 (after c ins),
     by_ (Some 1) [SocketEmit "client-leave-sync" workspaceId;
                   SocketOff "connect" 0]).
Proof.
  destruct (hooks_after c ins) as [Hk H1]. simpl. rewrite Hk.
  by rewrite call_all_cons, call_eq, H1.
Qed.

Lemma connect_listeners_torn_down (c : bool) (ins : list input) :
  listeners (step Teardown (after c ins)).1 "connect" = [].
Proof.
  rewrite step_teardown. simpl. rewrite listeners_socket_off, decide_True by done.
  apply elem_of_nil_inv. intros x Hx.
  apply remove_first_elem in Hx as [Hx Hne]; [|apply wf_after].
  by apply connect_listeners_after in Hx.
Qed.

(** With no listener of ['connect'] left, no step emits a handshake. *)
Lemma step_torn_down (i : input) (w : world) :
  wf w → listeners w "connect" = [] →
  listeners (step i w).1 "connect" = []
  ∧ emitted "client-handshake-sync" (step i w).2 = [].
Proof.
  intros Hwf Hl. split.
  - apply elem_of_nil_inv. intros x Hx%connect_listeners_step.
    rewrite Hl in Hx. by apply not_elem_of_nil in Hx.
  - destruct i as [|r|m|cb dc|g| |docId st r|docId u r]; try done.
    + unfold step, fire.
      change (listeners (set_connected true w) "connect")
        with (listeners w "connect"). by rewrite Hl.
    + unfold step, fire. rewrite call_all_trace. apply emitted_bind.
      intros f Hf. eapply listens_on_not_connect; [|by apply Hwf]. done.
    + unfold step, fire. rewrite call_all_trace. apply emitted_bind.
      intros f Hf. eapply listens_on_not_connect; [|by apply Hwf]. done.
    + simpl. destruct (heap w !! g) as [[| | | |u d]|] eqn:E; try done.
      by rewrite call_trace_eq, emitted_call_trace, E.
    + simpl. rewrite call_all_trace. apply emitted_bind.
      intros f [h Hh]%(wf_hooks _ Hwf). congruence.
    + destruct (step_pull docId st r w) as (t & -> & Hq). by apply emitted_quiet.
    + destruct (step_push docId u r w) as (t & -> & Hq). by apply emitted_quiet.
Qed.

(** X6: at teardown the callback the constructor registered runs
    [cleanup], whatever came before: it emits one departure announcement
    carrying the bound collection id, then detaches [handleConnect], which
    is a listener of ['connect'] no more; the listeners of every other
    event, those of the subscriptions, stay attached. *)
Theorem teardown_departure (c : bool) (ins : list input) :
  let w := after c ins in
  (step Teardown w).2
  = by_ (Some 1) [SocketEmit "client-leave-sync" workspaceId;
                  SocketOff "connect" 0]
  ∧ emitted "client-leave-sync" (step Teardown w).2 = [workspaceId]
  ∧ (0 ∉ listeners (step Teardown w).1 "connect")
  ∧ (∀ ev, ev ≠ "connect" → listeners (step Teardown w).1 ev = listeners w ev).
Proof.
  intros w. split; [|split; [|split]].
  - unfold w. by rewrite step_teardown.
  - unfold w. by rewrite step_teardown.
  - unfold w. rewrite step_teardown. cbn [fst].
    rewrite listeners_socket_off, decide_True by done.
    rewrite remove_first_elem by apply wf_after. naive_solver.
  - intros ev Hev. unfold w. rewrite step_teardown. simpl.
    rewrite listeners_socket_off. case_decide; [by subst|done].
Qed.

(** X7: once torn down the client never emits a handshake again, whatever
    follows: connect events, fresh subscriptions, further teardowns. *)
Theorem no_handshake_after_teardown (c : bool) (ins ins' : list input) :
  emitted "client-handshake-sync"
    (run (Teardown :: ins') (after c ins)).2 = [].
Proof.
  rewrite run_cons. cbn [fst snd]. rewrite emitted_app.
  replace (emitted "client-handshake-sync" (step Teardown (after c ins)).2)
    with (@nil string) by by rewrite step_teardown.
  rewrite app_nil_l.
  pose proof (connect_listeners_torn_down c ins) as Hl.
  pose proof (wf_step Teardown _ (wf_after c ins)) as Hwf.
  revert Hl Hwf. generalize (step Teardown (after c ins)).1 as w.
  induction ins' as [|i ins' IH]; intros w Hl Hwf; [done|].
  destruct (step_torn_down i w Hwf Hl) as [Hl' Ht].
  rewrite run_cons. cbn [fst snd]. rewrite emitted_app, Ht, app_nil_l.
  apply IH; [done|by apply wf_step].
Qed.

(** X8: teardown does not end a subscription: a [handleUpdate] attached
    before the teardown still calls [onUpdate] for every entry of a
    broadcast for the bound collection that arrives after it. *)
Theorem teardown_keeps_delivery (c : bool) (ins : list input) (h : fnref)
    (onUpdate : callback) (guid : string) (updates : list string) :
  let w := after c ins in
  heap w !! h = Some (HandleUpdate onUpdate) →
  h ∈ listeners w "server-updates" →
  ops_by h (step (ServerUpdates (Message workspaceId guid updates))
                 (step Teardown w).1).2
  = (λ u, CallUpdate onUpdate guid (base64ToUint8Array u)) <$> updates.
Proof.
  intros w Hh Hin.
  pose proof (wf_step Teardown _ (wf_after c ins)) as Hwf. fold w in Hwf.
  unfold step at 1. unfold fire. rewrite call_all_trace.
  rewrite (ops_by_present h (HandleUpdate onUpdate)); [|apply Hwf|..].
  - rewrite closure_ops_update. simpl. by rewrite String.eqb_refl.
  - unfold w. rewrite step_teardown. simpl.
    by rewrite listeners_socket_off, decide_False.
  - unfold w. rewrite step_teardown. simpl. by rewrite heap_socket_off.
Qed.

Lemma remove_first_snoc (f : fnref) (l : list fnref) :
  f ∉ l → remove_first f (l ++ [f]) = l.
Proof.
  induction l as [|g l IH]; simpl; [by rewrite Nat.eqb_refl|]. intros Hf.
  destruct (Nat.eqb_spec g f) as [->|Hne]; [set_solver|].
  f_equal. apply IH. set_solver.
Qed.

(** X9: subscribing and then calling the function [subscribe] returned
    leaves every event with the listeners it had before: [off] undoes [on],
    and no listener is left behind. *)
Theorem subscribe_cancel_round_trip (c : bool) (ins : list input)
    (cb dc : callback) (ev : string) :
  let w := after c ins in
  let handle := S (S (length (heap w))) in
  let w1 := (step (CallSubscribe cb dc) w).1 in
  result (exec silent (subscribe cb dc) w) = Resolved handle
  ∧ listeners (step (CallHandle handle) w1).1 ev = listeners w ev.
Proof.
  intros w handle w1. split; [by rewrite exec_subscribe|].
  unfold w1. rewrite step_subscribe. cbn [fst].
  assert (∀ ev x, x ∈ listeners w ev → x < length (heap w)) as Hlt.
  { intros ev' x Hx. eapply listens_on_lt. by apply (wf_after c ins). }
  rewrite (call_unsubscribe handle (length (heap w)) (S (length (heap w)))).
  - cbn [fst]. rewrite !listeners_socket_off, !listeners_subscribed.
    repeat (case_decide; subst); try done.
    + apply remove_first_snoc. intros Hin%Hlt. lia.
    + apply remove_first_snoc. intros Hin%Hlt. lia.
  - unfold handle. simpl. rewrite lookup_app_r by lia.
    by replace (S (S (length (heap w))) - length (heap w)) with 2 by lia.
Qed.

(** A step that is not a call of a returned function detaches no
    [handleDisconnect]. *)
Lemma disconnect_listeners_call_all (fs : list fnref) (a : args) (w : world) :
  (∀ f u d, f ∈ fs → heap w !! f ≠ Some (Unsubscribe u d)) →
  listeners (call_all fs a w).1 "disconnect" = listeners w "disconnect".
Proof.
  revert w. induction fs as [|f fs IH]; intros w H; [done|].
  rewrite call_all_cons. simpl. rewrite IH.
  - rewrite call_eq. pose proof (λ u d, H f u d (list_elem_of_here _ _)) as Hf.
    destruct (heap w !! f) as [c|]; [|done].
    destruct c as [|h|cb|u dc|u d], a as [|r|m]; simpl;
      rewrite ?listeners_socket_off; repeat case_decide; try done;
      by destruct (Hf u d).
  - intros g u d Hg. rewrite heap_call. apply H. by right.
Qed.

Lemma listens_on_not_handle (w : world) (ev : string) (f u d : fnref) :
  listens_on w ev f → heap w !! f ≠ Some (Unsubscribe u d).
Proof. unfold listens_on. by intros H E; rewrite E in H. Qed.

Lemma step_keeps_disconnect (i : input) (w : world) (x : fnref) :
  wf w → is_call_handle i = false →
  x ∈ listeners w "disconnect" → x ∈ listeners (step i w).1 "disconnect".
Proof.
  intros Hwf Hi Hx.
  destruct i as [|r|m|cb dc|g| |docId st r|docId u r]; try done.
  - unfold step, fire. rewrite disconnect_listeners_call_all; [done|].
    intros f u d Hf. eapply listens_on_not_handle.
    by apply (wf_events _ (wf_set_connected true w Hwf)).
  - unfold step, fire. rewrite disconnect_listeners_call_all; [done|].
    intros f u d Hf. eapply listens_on_not_handle.
    by apply (wf_events _ (wf_set_connected false w Hwf)).
  - unfold step, fire. rewrite disconnect_listeners_call_all; [done|].
    intros f u d Hf. eapply listens_on_not_handle. by apply Hwf.
  - rewrite step_subscribe. cbn [fst]. rewrite listeners_subscribed. simpl.
    apply elem_of_app. by left.
  - simpl. rewrite disconnect_listeners_call_all; [done|].
    intros f u d [h Hh]%(wf_hooks _ Hwf). congruence.
  - by destruct (step_pull docId st r w) as (t & -> & _).
  - by destruct (step_push docId u r w) as (t & -> & _).
Qed.

(** X10: a disconnect does not detach [handleDisconnect]: as long as no
    returned function is called, the handler stays attached through
    whatever happens, disconnects among it, and every disconnect event, the
    second like the first, makes it call [onDisconnect] with the reason of
    that event. *)
Theorem disconnect_handler_stays (c : bool) (ins ins' : list input)
    (handleUpdate handleDisconnect : fnref) (onDisconnect : callback)
    (reason : string) :
  let w := after c ins in
  heap w !! handleDisconnect = Some (HandleDisconnect handleUpdate onDisconnect) →
  handleDisconnect ∈ listeners w "disconnect" →
  forallb (negb ∘ is_call_handle) ins' = true →
  let w' := (run ins' w).1 in
  handleDisconnect ∈ listeners w' "disconnect"
  ∧ ops_by handleDisconnect (step (SocketDisconnects reason) w').2
    = [SocketOff "server-updates" handleUpdate;
       CallDisconnect onDisconnect reason].
Proof.
  intros w Hd Hin Hins' w'.
  assert (handleDisconnect ∈ listeners w' "disconnect") as Hin'.
  { unfold w'. clear Hd. revert Hin Hins'. generalize (wf_after c ins).
    fold w. generalize w as w0.
    induction ins' as [|i ins' IH]; intros w0 Hwf Hin Hins'; [done|].
    simpl in Hins'. apply andb_true_iff in Hins' as [Hi Hins'].
    apply negb_true_iff in Hi. rewrite run_cons. cbn [fst].
    apply IH; [by apply wf_step|by apply step_keeps_disconnect|done]. }
  split; [done|].
  assert (wf w') as Hwf by apply wf_run, wf_after.
  unfold step, fire. rewrite call_all_trace.
  rewrite (ops_by_present _ (HandleDisconnect handleUpdate onDisconnect));
    [done|apply (wf_set_connected false w' Hwf)|done|].
  by apply heap_run.
Qed.

(** A function object that is attached nowhere, and is neither a returned
    function nor the teardown callback, is never called again. *)
Lemma step_detached_closure (i : input) (w : world) (x : fnref) (c : closure) :
  wf w → heap w !! x = Some c →
  (∀ u d, c ≠ Unsubscribe u d) → (∀ h, c ≠ CleanupHook h) →
  (∀ ev, x ∉ listeners w ev) →
  ops_by x (step i w).2 = [] ∧ (∀ ev, x ∉ listeners (step i w).1 ev).
Proof.
  intros Hwf Hx Hnu Hnh Hout. split.
  - destruct i as [|r|m|cb' dc|g| |docId st r|docId upd r].
    + unfold step, fire. rewrite call_all_trace. apply ops_by_absent, Hout.
    + unfold step, fire. rewrite call_all_trace. apply ops_by_absent, Hout.
    + unfold step, fire. rewrite call_all_trace. apply ops_by_absent, Hout.
    + rewrite step_subscribe. by apply ops_by_other.
    + simpl. destruct (heap w !! g) as [[| | | |u d]|] eqn:E; try done.
      rewrite call_trace_eq, ops_by_call_trace.
      case_decide as Hg; [|done]. subst g. rewrite Hx in E.
      injection E as ->. by destruct (Hnu u d).
    + simpl. rewrite call_all_trace. apply ops_by_absent.
      intros [h Hh]%(wf_hooks _ Hwf). rewrite Hx in Hh.
      injection Hh as ->. by destruct (Hnh h).
    + destruct (step_pull docId st r w) as (t & -> & _). by apply ops_by_other.
    + destruct (step_push docId upd r w) as (t & -> & _). by apply ops_by_other.
  - intros ev [Hin|Hge]%listeners_step; [by eapply Hout|].
    apply lookup_lt_Some in Hx. lia.
Qed.

(** X11: once the function [subscribe] returned has been called, the
    subscription's [handleDisconnect] performs nothing, so calls no
    [onDisconnect], whatever follows, disconnects among it. *)
Theorem cancel_silences_disconnect (c : bool) (ins ins' : list input)
    (handle handleUpdate handleDisconnect : fnref) (onDisconnect : callback) :
  let w := after c ins in
  heap w !! handle = Some (Unsubscribe handleUpdate handleDisconnect) →
  heap w !! handleDisconnect = Some (HandleDisconnect handleUpdate onDisconnect) →
  ops_by handleDisconnect (run ins' (step (CallHandle handle) w).1).2 = [].
Proof.
  intros w Hf Hd. pose proof (wf_after c ins) as Hwf. fold w in Hwf.
  pose proof (wf_step (CallHandle handle) w Hwf) as Hwf1.
  assert (heap (step (CallHandle handle) w).1 !! handleDisconnect
          = Some (HandleDisconnect handleUpdate onDisconnect)) as Hd1
    by by apply heap_step.
  assert (∀ ev, handleDisconnect ∉ listeners (step (CallHandle handle) w).1 ev)
    as Hout.
  { intros ev Hin. destruct (decide (ev = "disconnect")) as [->|Hne].
    - rewrite (call_unsubscribe _ _ _ _ Hf) in Hin. cbn [fst] in Hin.
      apply listeners_unsubscribed in Hin; [|done]. naive_solver.
    - apply (wf_events _ Hwf1) in Hin. unfold listens_on in Hin.
      rewrite Hd1 in Hin. naive_solver. }
  revert Hwf1 Hd1 Hout. generalize (step (CallHandle handle) w).1 as w1.
  induction ins' as [|i ins' IH]; intros w1 Hwf1 Hd1 Hout; [done|].
  destruct (step_detached_closure i w1 handleDisconnect _ Hwf1 Hd1) as [Ht Hout'];
    [done..|].
  rewrite run_cons. cbn [fst snd]. rewrite ops_by_app, Ht, app_nil_l.
  apply IH; [by apply wf_step|by apply heap_step|done].
Qed.

(** X12: a subscription that still receives updates is always told of a
    disconnect: whenever a [handleUpdate] is attached, the
    [handleDisconnect] created with it is attached too, and a disconnect
    event makes it detach that [handleUpdate] and call [onDisconnect]. *)
Theorem delivering_hears_disconnect (c : bool) (ins : list input)
    (handleUpdate : fnref) (reason : string) :
  let w := after c ins in
  handleUpdate ∈ listeners w "server-updates" →
  ∃ onUpdate onDisconnect,
    heap w !! handleUpdate = Some (HandleUpdate onUpdate)
    ∧ heap w !! S handleUpdate
      = Some (HandleDisconnect handleUpdate onDisconnect)
    ∧ S handleUpdate ∈ listeners w "disconnect"
    ∧ ops_by (S handleUpdate) (step (SocketDisconnects reason) w).2
      = [SocketOff "server-updates" handleUpdate;
         CallDisconnect onDisconnect reason].
Proof.
  intros w Hin. pose proof (wf_after c ins) as Hwf. fold w in Hwf.
  pose proof (wf_events _ Hwf _ _ Hin) as Hu.
  pose proof (wf_paired _ Hwf _ Hin) as Hin'.
  pose proof (wf_events _ Hwf _ _ Hin') as Hd.
  unfold listens_on in Hu, Hd.
  destruct (heap w !! handleUpdate) as [[| |cb| |]|] eqn:Eu; try done;
    [|naive_solver].
  destruct (heap w !! S handleUpdate) as [[| | |u dc|]|] eqn:Ed; try done.
  destruct Hd as [_ [= <-]].
  exists cb, dc. split; [done|]. split; [done|]. split; [done|].
  unfold step, fire. rewrite call_all_trace.
  by rewrite (ops_by_present _ (HandleDisconnect handleUpdate dc));
    [|apply (wf_set_connected false w Hwf)|done..].
Qed.

Lemma update_calls_call_trace_eq (w : world) (guid : string)
    (updates : list string) (f : fnref) :
  update_calls (call_trace w (Broadcast (Message workspaceId guid updates)) f)
  = deliveries w (Message workspaceId guid updates) f.
Proof.
  unfold call_trace, deliveries. destruct (heap w !! f) as [c|]; [|done].
  destruct c as [|h|cb|u dc|u d]; try done.
  rewrite closure_ops_update. simpl. rewrite String.eqb_refl.
  apply update_calls_delivered.
Qed.

(** X13: a broadcast for the bound collection causes the [onUpdate] calls
    of the attached subscriptions one subscription after the other, in the
    order in which they are attached, each with all the entries in array
    order, and no other [onUpdate] call. *)
Theorem delivery_order (c : bool) (ins : list input) (guid : string)
    (updates : list string) :
  let w := after c ins in
  let m := Message workspaceId guid updates in
  update_calls (step (ServerUpdates m) w).2
  = listeners w "server-updates" ≫= deliveries w m.
Proof.
  intros w m. unfold step, fire. rewrite call_all_trace.
  induction (listeners w "server-updates") as [|f fs IH]; [done|].
  rewrite !bind_cons, update_calls_app, IH. f_equal.
  apply update_calls_call_trace_eq.
Qed.

Lemma local_by (who : option fnref) (t : list op) :
  Forall local_op t → Forall (λ e : entry, local_op e.2) (by_ who t).
Proof. intros H. unfold by_. by apply Forall_fmap. Qed.

(** Every function object except [handleConnect] and the teardown callback
    works on the listeners and the callbacks alone. *)
Lemma local_call_trace (w : world) (a : args) (f : fnref) :
  heap w !! f ≠ Some HandleConnect → (∀ h, heap w !! f ≠ Some (CleanupHook h)) →
  Forall (λ e : entry, local_op e.2) (call_trace w a f).
Proof.
  intros Hc Hh. unfold call_trace. destruct (heap w !! f) as [c|]; [|done].
  destruct c as [|h|cb|u dc|u d], a as [|r|m]; try done;
    try (by apply local_by; repeat constructor); try by destruct (Hh h).
  apply local_by. rewrite closure_ops_update.
  destruct (String.eqb _ _); [|done]. apply Forall_fmap, Forall_forall. by intros.
Qed.

Lemma local_bind (w : world) (a : args) (fs : list fnref) :
  (∀ f, f ∈ fs → heap w !! f ≠ Some HandleConnect
                 ∧ ∀ h, heap w !! f ≠ Some (CleanupHook h)) →
  Forall (λ e : entry, local_op e.2) (fs ≫= call_trace w a).
Proof.
  induction fs as [|f fs IH]; [done|]. intros H.
  rewrite bind_cons. apply Forall_app. split.
  - apply local_call_trace; apply H; by left.
  - apply IH. intros g Hg. apply H. by right.
Qed.

(** X14: live delivery is local: calling [subscribe] or a function it
    returned, receiving a broadcast and handling a disconnect send nothing
    to the remote side, whatever the client went through before; only the
    constructor, connect events, teardown, [pull] and [push] do. *)
Theorem live_delivery_is_local (c : bool) (ins : list input) (i : input) :
  is_connect i = false → is_teardown i = false → is_request i = false →
  Forall (λ e : entry, local_op e.2) (step i (after c ins)).2.
Proof.
  intros Hc Ht Hr. pose proof (wf_after c ins) as Hwf.
  destruct i as [|r|m|cb dc|g| |docId st r|docId u r]; try done.
  - unfold step, fire. rewrite call_all_trace. apply local_bind.
    intros f Hf. apply (wf_events _ (wf_set_connected false _ Hwf)) in Hf.
    split; [eapply listens_on_not_connect; [|exact Hf]; done
           |intros h; eapply listens_on_not_hook; exact Hf].
  - unfold step, fire. rewrite call_all_trace. apply local_bind.
    intros f Hf. apply (wf_events _ Hwf) in Hf.
    split; [eapply listens_on_not_connect; [|exact Hf]; done
           |intros h; eapply listens_on_not_hook; exact Hf].
  - rewrite step_subscribe. apply local_by. by repeat constructor.
  - simpl. destruct (heap (after c ins) !! g) as [[| | | |u d]|] eqn:E; try done.
    rewrite call_trace_eq. apply local_call_trace; by rewrite E.
Qed.

End Client.

(** * The base64 codec is a codec *)

Module Base64Facts.

Import Base64.

Ltac euclid := zify; Z.to_euclidean_division_equations; lia.

Lemma byte_of_to_N (x : byte) : byte_of (Byte.to_N x) = x.
Proof.
  unfold byte_of. pose proof (Byte.to_N_bounded x).
  rewrite N.mod_small by lia. by rewrite Byte.of_to_N.
Qed.

Lemma value_digit (n : N) : (n < 64)%N → value (digit n) = Some n.
Proof.
  intros H. rewrite <- (N2Nat.id n). unfold digit. rewrite Nat2N.id.
  assert (N.to_nat n < 64) as Hk by lia. revert Hk.
  generalize (N.to_nat n) as k. intros k Hk.
  do 64 (destruct k as [|k]; [reflexivity|]). lia.
Qed.

(** A property of all byte strings, taken three bytes at a time. *)
Lemma by_threes (P : bytes → Prop) :
  P [] → (∀ x, P [x]) → (∀ x y, P [x; y]) →
  (∀ x y z b, P b → P (x :: y :: z :: b)) →
  ∀ b, P b.
Proof.
  intros H0 H1 H2 H3 b.
  cut (P b ∧ (∀ x, P (x :: b)) ∧ (∀ x y, P (x :: y :: b))); [by intros [? _]|].
  induction b as [|a b (IH0 & IH1 & IH2)]; [done|].
  split; [apply IH1|]. split; [intros x; apply IH2|].
  intros x y. by apply H3.
Qed.

Lemma pack_digits (b : bytes) : Forall (λ n, n < 64)%N (pack b).
Proof.
  induction b as [|x|x y|x y z b IH] using by_threes.
  - constructor.
  - pose proof (Byte.to_N_bounded x). repeat constructor; simpl; euclid.
  - pose proof (Byte.to_N_bounded x). pose proof (Byte.to_N_bounded y).
    repeat constructor; simpl; euclid.
  - pose proof (Byte.to_N_bounded x). pose proof (Byte.to_N_bounded y).
    pose proof (Byte.to_N_bounded z).
    change (pack (x :: y :: z :: b)) with
      ([Byte.to_N x / 4; (Byte.to_N x mod 4) * 16 + Byte.to_N y / 16;
        (Byte.to_N y mod 16) * 4 + Byte.to_N z / 64; Byte.to_N z mod 64]%N
         ++ pack b).
    apply Forall_app. split; [|done]. repeat constructor; euclid.
Qed.

Lemma unpack_pack (b : bytes) : unpack (pack b) = b.
Proof.
  induction b as [|x|x y|x y z b IH] using by_threes.
  - done.
  - pose proof (Byte.to_N_bounded x). simpl. f_equal.
    rewrite <- (byte_of_to_N x) at 3. f_equal. euclid.
  - pose proof (Byte.to_N_bounded x). pose proof (Byte.to_N_bounded y).
    simpl. f_equal; [|f_equal].
    + rewrite <- (byte_of_to_N x) at 3. f_equal. euclid.
    + rewrite <- (byte_of_to_N y) at 3. f_equal. euclid.
  - pose proof (Byte.to_N_bounded x). pose proof (Byte.to_N_bounded y).
    pose proof (Byte.to_N_bounded z).
    change (unpack (pack (x :: y :: z :: b))) with
      (byte_of (Byte.to_N x / 4 * 4
                + ((Byte.to_N x mod 4) * 16 + Byte.to_N y / 16) / 16)
       :: byte_of (((Byte.to_N x mod 4) * 16 + Byte.to_N y / 16) mod 16 * 16
                   + ((Byte.to_N y mod 16) * 4 + Byte.to_N z / 64) / 4)
       :: byte_of (((Byte.to_N y mod 16) * 4 + Byte.to_N z / 64) mod 4 * 64
                   + Byte.to_N z mod 64)
       :: unpack (pack b))%N.
    rewrite IH. f_equal; [|f_equal; [|f_equal]].
    + rewrite <- (byte_of_to_N x) at 3. f_equal. euclid.
    + rewrite <- (byte_of_to_N y) at 3. f_equal. euclid.
    + rewrite <- (byte_of_to_N z) at 3. f_equal. euclid.
Qed.

Lemma values_of_digits (l : list N) :
  Forall (λ n, n < 64)%N l → omap value (digit <$> l) = l.
Proof.
  induction 1 as [|n l Hn Hl IH]; [done|]. simpl.
  rewrite (value_digit n Hn). simpl. f_equal. exact IH.
Qed.

Lemma list_ascii_of_append (s1 s2 : string) :
  list_ascii_of_string (s1 +:+ s2)
  = list_ascii_of_string s1 ++ list_ascii_of_string s2.
Proof. induction s1 as [|c s1 IH]; simpl; [done|]. by rewrite IH. Qed.

Lemma values_of_padding (n : nat) :
  omap value (list_ascii_of_string (padding n)) = [].
Proof.
  unfold padding. pose proof (Nat.mod_upper_bound n 3).
  by destruct (n mod 3) as [|[|[|k]]]; [..|lia].
Qed.

(** The spec's round trip: decoding an encoding gives the bytes back, the
    empty payload included. *)
Lemma decode_encode (b : bytes) : decode (encode b) = b.
Proof.
  unfold decode, encode.
  rewrite list_ascii_of_append, omap_app, values_of_padding, app_nil_r.
  rewrite list_ascii_of_string_of_list_ascii.
  rewrite values_of_digits by apply pack_digits. apply unpack_pack.
Qed.

Lemma encode_nonempty (b : bytes) : b ≠ [] → encode b ≠ "".
Proof. by destruct b as [|x [|y [|z b]]]. Qed.

(** With this codec a reply that encodes [missing] and a state vector that
    is not empty gives both back. *)
Lemma pull_round_trip (workspaceId docId : string) (st : option bytes)
    (w : world) (missing state : bytes) :
  state ≠ [] →
  result (exec (replying_load
                  (Resolved (LoadData (encode missing) (Some (encode state)))))
               (pull encode decode workspaceId docId st) w)
  = Resolved (Some {| data := missing; state := Some state |}).
Proof.
  intros Hne. unfold result, pull. simpl.
  destruct (String.eqb_spec (encode state) "") as [E|_];
    [by apply encode_nonempty in E|].
  simpl. by rewrite !decode_encode.
Qed.

End Base64Facts.

(** * The claims at concrete inputs, with the base64 codec *)

(** C1 as stated fails: called with the empty local state, [pull] does not
    skip the encoding; the request carries a [stateVector], the encoding of
    the empty payload, where the claim has the field left out. *)
Lemma pull_empty_state_vector_sent :
  let sent :=
    requests (performed (exec silent
                (pull Base64.encode Base64.decode "ws" "doc" (Some []))
                (fresh_socket true))) in
  sent = [(30000%Z, "doc-load-v2", DocLoad "ws" "doc" (Some ""))]
  ∧ sent ≠ [(30000%Z, "doc-load-v2", DocLoad "ws" "doc" None)].
Proof. split; [vm_compute; reflexivity|vm_compute; discriminate]. Qed.

(** C2 as stated fails: a reply that encodes [missing] and, as its state,
    the empty state vector (whose encoding is the empty text) makes [pull]
    resolve with no state, where the claim has the decoded state, the empty
    state vector. *)
Lemma pull_empty_state_text_dropped :
  let reply := LoadData (Base64.encode [x01; x02; x03]) (Some (Base64.encode [])) in
  let r :=
    result (exec (replying_load (Resolved reply))
                 (pull Base64.encode Base64.decode "ws" "doc" None)
                 (fresh_socket true)) in
  reply = LoadData "AQID" (Some "")
  ∧ r = Resolved (Some {| data := [x01; x02; x03]; state := None |})
  ∧ r ≠ Resolved (Some {| data := [x01; x02; x03]; state := Some [] |}).
Proof.
  split; [vm_compute; reflexivity|].
  split; [vm_compute; reflexivity|vm_compute; discriminate].
Qed.

Lemma pull_reply_witness :
  let pull_with reply :=
    result (exec (replying_load (Resolved reply))
                 (pull Base64.encode Base64.decode "ws" "doc" None)
                 (fresh_socket true)) in
  pull_with (LoadError (JObj [("code", JStr "DOC_NOT_FOUND");
                              ("message", JStr "gone")]))
  = Resolved None
  ∧ pull_with (LoadError (JObj [("code", JStr "INTERNAL");
                                ("message", JStr "boom")]))
    = Rejected (Error (JStr "boom"))
  ∧ pull_with (LoadData "AQID" (Some "AA=="))
    = Resolved (Some {| data := [x01; x02; x03]; state := Some [x00] |}).
Proof.
  intros pull_with.
  pose proof (λ reply, pull_reply Base64.encode Base64.decode "ws" "doc" None
                         (fresh_socket true) reply) as H.
  split; [|split].
  - apply (proj1 (H _) [("code", JStr "DOC_NOT_FOUND"); ("message", JStr "gone")]);
      reflexivity.
  - apply (proj1 (proj2 (H _)) [("code", JStr "INTERNAL"); ("message", JStr "boom")]);
      [reflexivity|discriminate].
  - apply (proj2 (proj2 (H _)) "AQID" (Some "AA==")); reflexivity.
Defined.

Lemma broadcast_delivery_witness :
  let w := subscribed_once Base64.encode Base64.decode "ws" in
  let receive m := (step Base64.encode Base64.decode "ws" (ServerUpdates m) w).2 in
  heap w !! 2 = Some (HandleUpdate 7)
  ∧ 2 ∈ listeners w "server-updates"
  ∧ ops_by 2 (receive (Message "ws" "doc" ["AQ=="; "Ag=="]))
    = [CallUpdate 7 "doc" [x01]; CallUpdate 7 "doc" [x02]]
  ∧ update_calls (receive (Message "other" "doc" ["AQ=="; "Ag=="])) = [].
Proof.
  intros w receive.
  assert (heap w !! 2 = Some (HandleUpdate 7)) as H1 by (vm_compute; reflexivity).
  assert (2 ∈ listeners w "server-updates") as H2
    by (vm_compute; apply list_elem_of_here).
  pose proof (λ m, broadcast_delivery Base64.encode Base64.decode "ws" true
                     [CallSubscribe 7 8] 2 7 m H1 H2) as H.
  split; [exact H1|]. split; [exact H2|]. split.
  - exact (proj1 (proj2 (H (Message "ws" "doc" ["AQ=="; "Ag=="]))) eq_refl).
  - refine (proj2 (proj1 (H (Message "other" "doc" ["AQ=="; "Ag=="])) _)).
    discriminate.
Defined.

Lemma handshake_on_connect_witness :
  let ins := [CallSubscribe 7 8; SocketConnects] in
  forallb (negb ∘ is_teardown) ins = true
  ∧ emitted "client-handshake-sync" (construct "ws" false).2 = []
  ∧ connect_requests (construct "ws" false).2 = 1
  ∧ emitted "client-handshake-sync"
      (run Base64.encode Base64.decode "ws" (cycles "transport close" 3)
           (after Base64.encode Base64.decode "ws" false ins)).2
    = ["ws"; "ws"; "ws"].
Proof.
  intros ins.
  assert (forallb (negb ∘ is_teardown) ins = true) as H by reflexivity.
  pose proof (handshake_on_connect Base64.encode Base64.decode "ws" false ins
                "transport close" 3 H) as (H1 & H2 & _ & _ & H5).
  split; [exact H|]. split; [exact H1|]. split; [exact H2|exact H5].
Defined.

Lemma disconnect_detaches_witness :
  let w := subscribed_once Base64.encode Base64.decode "ws" in
  let gone := step Base64.encode Base64.decode "ws"
                   (SocketDisconnects "transport close") w in
  let ins' := [ServerUpdates (Message "ws" "doc" ["AQ=="]); SocketConnects] in
  heap w !! 3 = Some (HandleDisconnect 2 8)
  ∧ 3 ∈ listeners w "disconnect"
  ∧ forallb (negb ∘ is_subscribe) ins' = true
  ∧ ops_by 3 gone.2
    = [SocketOff "server-updates" 2; CallDisconnect 8 "transport close"]
  ∧ update_calls (run Base64.encode Base64.decode "ws" ins' gone.1).2 = [].
Proof.
  intros w gone ins'.
  assert (heap w !! 3 = Some (HandleDisconnect 2 8)) as H1
    by (vm_compute; reflexivity).
  assert (3 ∈ listeners w "disconnect") as H2
    by (vm_compute; apply list_elem_of_here).
  pose proof (disconnect_detaches Base64.encode Base64.decode "ws" true
                [CallSubscribe 7 8] 2 3 8 "transport close" H1 H2)
    as (H3 & _ & _ & H4).
  split; [exact H1|]. split; [exact H2|]. split; [reflexivity|].
  split; [exact H3|]. apply H4. reflexivity.
Defined.

Lemma unsubscribe_idempotent_witness :
  let w := subscribed_once Base64.encode Base64.decode "ws" in
  let cancel w := (step Base64.encode Base64.decode "ws" (CallHandle 4) w).1 in
  heap w !! 4 = Some (Unsubscribe 2 3)
  ∧ cancel (cancel w) = cancel w
  ∧ ops_by 2 (step Base64.encode Base64.decode "ws"
                   (ServerUpdates (Message "ws" "doc" ["AQ=="])) (cancel w)).2
    = [].
Proof.
  intros w cancel.
  assert (heap w !! 4 = Some (Unsubscribe 2 3)) as H1 by (vm_compute; reflexivity).
  pose proof (unsubscribe_idempotent Base64.encode Base64.decode "ws" true
                [CallSubscribe 7 8] 4 2 3 H1) as (_ & _ & H2 & _ & _ & H3 & _).
  split; [exact H1|]. split; [exact H2|apply H3].
Defined.

Lemma subscriptions_stack_witness :
  let w := subscribed_twice Base64.encode Base64.decode "ws" in
  let receive w :=
    (step Base64.encode Base64.decode "ws"
          (ServerUpdates (Message "ws" "doc" ["AQ=="])) w).2 in
  let cancelled := (step Base64.encode Base64.decode "ws" (CallHandle 4) w).1 in
  heap w !! 4 = Some (Unsubscribe 2 3)
  ∧ heap w !! 2 = Some (HandleUpdate 7)
  ∧ heap w !! 5 = Some (HandleUpdate 9)
  ∧ 2 ∈ listeners w "server-updates"
  ∧ 5 ∈ listeners w "server-updates"
  ∧ ops_by 2 (receive w) = [CallUpdate 7 "doc" [x01]]
  ∧ ops_by 5 (receive w) = [CallUpdate 9 "doc" [x01]]
  ∧ ops_by 5 (receive cancelled) = [CallUpdate 9 "doc" [x01]]
  ∧ ops_by 2 (receive cancelled) = [].
Proof.
  intros w receive cancelled.
  assert (heap w !! 4 = Some (Unsubscribe 2 3)) as H1 by (vm_compute; reflexivity).
  assert (heap w !! 2 = Some (HandleUpdate 7)) as H2 by (vm_compute; reflexivity).
  assert (heap w !! 5 = Some (HandleUpdate 9)) as H3 by (vm_compute; reflexivity).
  assert (2 ∈ listeners w "server-updates") as H4
    by (vm_compute; apply list_elem_of_here).
  assert (5 ∈ listeners w "server-updates") as H5
    by (vm_compute; apply list_elem_of_further, list_elem_of_here).
  assert (2 ≠ 5) as H6 by discriminate.
  pose proof (subscriptions_stack Base64.encode Base64.decode "ws" true
                [CallSubscribe 7 8; CallSubscribe 9 10] 4 2 3 5 7 9
                (Message "ws" "doc" ["AQ=="]) H1 H2 H3 H4 H5 H6 eq_refl)
    as (_ & H7 & H8 & _ & H9 & H10).
  repeat (split; [assumption|]). exact H10.
Defined.

Lemma pull_null_iff_witness :
  result (exec (replying_load
                  (Resolved (LoadError (JObj [("code", JStr "DOC_NOT_FOUND")]))))
               (pull Base64.encode Base64.decode "ws" "doc" (Some [x00]))
               (fresh_socket true))
  = Resolved None.
Proof.
  apply (proj1 (pull_null_iff Base64.encode Base64.decode "ws" "doc" (Some [x00])
                  (fresh_socket true) _)).
  exists [("code", JStr "DOC_NOT_FOUND")]. split; reflexivity.
Defined.

Lemma teardown_keeps_delivery_witness :
  let w := subscribed_once Base64.encode Base64.decode "ws" in
  heap w !! 2 = Some (HandleUpdate 7)
  ∧ 2 ∈ listeners w "server-updates"
  ∧ ops_by 2
      (step Base64.encode Base64.decode "ws"
            (ServerUpdates (Message "ws" "doc" ["AQ=="; "Ag=="]))
            (step Base64.encode Base64.decode "ws" Teardown w).1).2
    = [CallUpdate 7 "doc" [x01]; CallUpdate 7 "doc" [x02]].
Proof.
  intros w.
  assert (heap w !! 2 = Some (HandleUpdate 7)) as H1 by (vm_compute; reflexivity).
  assert (2 ∈ listeners w "server-updates") as H2
    by (vm_compute; apply list_elem_of_here).
  split; [exact H1|]. split; [exact H2|].
  exact (teardown_keeps_delivery Base64.encode Base64.decode "ws" true
           [CallSubscribe 7 8] 2 7 "doc" ["AQ=="; "Ag=="] H1 H2).
Defined.

Lemma disconnect_handler_stays_witness :
  let w := subscribed_once Base64.encode Base64.decode "ws" in
  let ins' := [SocketDisconnects "transport close"; SocketConnects] in
  heap w !! 3 = Some (HandleDisconnect 2 8)
  ∧ 3 ∈ listeners w "disconnect"
  ∧ forallb (negb ∘ is_call_handle) ins' = true
  ∧ ops_by 3 (step Base64.encode Base64.decode "ws"
                   (SocketDisconnects "ping timeout")
                   (run Base64.encode Base64.decode "ws" ins' w).1).2
    = [SocketOff "server-updates" 2; CallDisconnect 8 "ping timeout"].
Proof.
  intros w ins'.
  assert (heap w !! 3 = Some (HandleDisconnect 2 8)) as H1
    by (vm_compute; reflexivity).
  assert (3 ∈ listeners w "disconnect") as H2
    by (vm_compute; apply list_elem_of_here).
  assert (forallb (negb ∘ is_call_handle) ins' = true) as H3 by reflexivity.
  split; [exact H1|]. split; [exact H2|]. split; [exact H3|].
  exact (proj2 (disconnect_handler_stays Base64.encode Base64.decode "ws" true
                  [CallSubscribe 7 8] ins' 2 3 8 "ping timeout" H1 H2 H3)).
Defined.

Lemma cancel_silences_disconnect_witness :
  let w := subscribed_once Base64.encode Base64.decode "ws" in
  heap w !! 4 = Some (Unsubscribe 2 3)
  ∧ heap w !! 3 = Some (HandleDisconnect 2 8)
  ∧ ops_by 3
      (run Base64.encode Base64.decode "ws"
           [SocketDisconnects "transport close"]
           (step Base64.encode Base64.decode "ws" (CallHandle 4) w).1).2
    = [].
Proof.
  intros w.
  assert (heap w !! 4 = Some (Unsubscribe 2 3)) as H1 by (vm_compute; reflexivity).
  assert (heap w !! 3 = Some (HandleDisconnect 2 8)) as H2
    by (vm_compute; reflexivity).
  split; [exact H1|]. split; [exact H2|].
  exact (cancel_silences_disconnect Base64.encode Base64.decode "ws" true
           [CallSubscribe 7 8] [SocketDisconnects "transport close"] 4 2 3 8
           H1 H2).
Defined.

Lemma delivering_hears_disconnect_witness :
  let w := subscribed_once Base64.encode Base64.decode "ws" in
  2 ∈ listeners w "server-updates"
  ∧ ∃ onUpdate onDisconnect,
      heap w !! 2 = Some (HandleUpdate onUpdate)
      ∧ heap w !! 3 = Some (HandleDisconnect 2 onDisconnect)
      ∧ 3 ∈ listeners w "disconnect"
      ∧ ops_by 3 (step Base64.encode Base64.decode "ws"
                       (SocketDisconnects "transport close") w).2
        = [SocketOff "server-updates" 2;
           CallDisconnect onDisconnect "transport close"].
Proof.
  intros w.
  assert (2 ∈ listeners w "server-updates") as H
    by (vm_compute; apply list_elem_of_here).
  split; [exact H|].
  exact (delivering_hears_disconnect Base64.encode Base64.decode "ws" true
           [CallSubscribe 7 8] 2 "transport close" H).
Defined.

Lemma live_delivery_is_local_witness :
  let i := SocketDisconnects "transport close" in
  is_connect i = false ∧ is_teardown i = false ∧ is_request i = false
  ∧ Forall (λ e : entry, local_op e.2)
      (step Base64.encode Base64.decode "ws" i
            (subscribed_once Base64.encode Base64.decode "ws")).2.
Proof.
  intros i. split; [reflexivity|]. split; [reflexivity|]. split; [reflexivity|].
  exact (live_delivery_is_local Base64.encode Base64.decode "ws" true
           [CallSubscribe 7 8] i eq_refl eq_refl eq_refl).
Defined.
